(** * superdesk.factory.app: application assembly and extension registry

    A shallow embedding of [superdesk/factory/app.py].  Python
    dictionaries are finite maps ([gmap]) where only lookups and updates
    matter and association lists where the iteration order matters; Python
    exceptions are values of [exn], and a call that can raise returns the
    state it reached together with an [outcome]. *)

From Stdlib Require Import Ascii String ZArith.
From stdpp Require Import gmap strings list.

Set Default Proof Using "Type".

Open Scope string_scope.
Open Scope list_scope.

(** ** Exceptions and outcomes *)

(** The exception classes that the module raises, catches or lets through. *)
Inductive exn : Type :=
| KeyError (key : string)
| AssertionError (msg : string)
| ValueError (msg : string)
| ImportError (module_name : string)
| AttributeError (attr : string)
| TypeError (msg : string)
| SystemExit (msg : string)
| DuplicateKeyError (msg : string)
| OtherError (msg : string).

(** How a statement sequence ends: it falls through or it raises. *)
Inductive outcome : Type :=
| Returned
| Raised (e : exn).

(** A call that yields a value or raises. *)
Inductive result (A : Type) : Type :=
| Ok (a : A)
| Raise (e : exn).
Arguments Ok {A} a.
Arguments Raise {A} e.

#[global] Instance exn_eq_dec : EqDecision exn.
Proof. solve_decision. Defined.

#[global] Instance outcome_eq_dec : EqDecision outcome.
Proof. solve_decision. Defined.

(** ** Python values that settings and payloads hold *)

#[warnings="-register-all"]
Inductive pyval : Type :=
| PyNone
| PyBool (b : bool)
| PyInt (z : Z)
| PyStr (s : string)
| PyList (items : list pyval)
| PyDict (items : list (string * pyval))
| PyClass (qualname : string).

(** Truth value of an object, as [if x:] and [x or y] test it. *)
Definition truthy (v : pyval) : bool :=
  match v with
  | PyNone => false
  | PyBool b => b
  | PyInt z => negb (Z.eqb z 0)
  | PyStr s => negb (String.eqb s "")
  | PyList l => match l with [] => false | _ => true end
  | PyDict d => match d with [] => false | _ => true end
  | PyClass _ => true
  end.

(** [d.get(key)]: the value, or [None] when the key is missing. *)
Definition dict_get (d : gmap string pyval) (key : string) : pyval :=
  default PyNone (d !! key).

(** [d.setdefault(key, value)], as a statement. *)
Definition setdefault {V : Type} (key : string) (value : V) (d : gmap string V)
  : gmap string V :=
  match d !! key with
  | Some _ => d
  | None => <[key := value]> d
  end.

(** ** Error translator ([set_error_handlers]) *)

Module ErrorHandlers.

(** What a handler needs of a [SuperdeskError]: the fields [to_dict()]
    serialises and the [status_code] attribute ([None] when unspecified). *)
Record SuperdeskError : Type := {
  to_dict : gmap string pyval;
  status_code : option Z
}.

(** The attribute as a value: [None] or an integer. *)
Definition status_value (error : SuperdeskError) : pyval :=
  match status_code error with
  | Some z => PyInt z
  | None => PyNone
  end.

(** [error.status_code or 422]. *)
Definition status_or (error : SuperdeskError) (fallback : Z) : Z :=
  match status_code error with
  | Some z => if truthy (PyInt z) then z else fallback
  | None => fallback
  end.

(** [send_response(None, (body, None, None, status))]: the response is the
    body and the HTTP status it is rendered with. *)
Definition send_response (body : gmap string pyval) (status : Z)
  : gmap string pyval * Z := (body, status).

Definition client_error_handler (error : SuperdeskError) : gmap string pyval * Z :=
  let error_dict := <["internal_error" := status_value error]> (to_dict error) in
  let status_code := status_or error 422 in
  send_response error_dict status_code.

(** [error.response] is whatever the 403 carries. *)
Definition server_forbidden_handler (response : pyval) : gmap string pyval * Z :=
  send_response {[ "code" := PyInt 403; "error" := response ]} 403.

(** [str_error] is [str(error)] of the [AssertionError]. *)
Definition assert_error_handler (str_error : string) : gmap string pyval * Z :=
  send_response
    {[ "code" := PyInt 400;
       "error" := PyStr (if truthy (PyStr str_error) then str_error else "assert") ]}
    400.

(** [SuperdeskApiError.internalError(error)] builds the error that is then
    handed to [client_error_handler]. *)
Definition server_error_handler (internalError : pyval -> SuperdeskError)
    (error : pyval) : gmap string pyval * Z :=
  client_error_handler (internalError error).

Lemma truthy_str_nonempty (s : string) : s ≠ "" → truthy (PyStr s) = true.
Proof.
  intros Hs. simpl. destruct (String.eqb_spec s ""); [done | reflexivity].
Qed.

(** Modelled from the spec: the serialisation of a declared domain error
    ([SuperdeskError.to_dict], of [superdesk.errors]).  The structured
    fields of an error with a status code and a message are the status code
    under [code] and the message under [error]. *)
Definition domain_error (status : option Z) (message : string) : SuperdeskError :=
  {| to_dict :=
       {[ "code" := match status with Some z => PyInt z | None => PyNone end;
          "error" := PyStr message ]};
     status_code := status |}.

(** C8.  A declared domain error is answered with its serialised fields,
    to which the [internal_error] marker is added with the error's own
    status code as value, and with that status code as HTTP status, or 422
    when the error has none or has 0.  An error with status 404 and message
    ["not found"] therefore yields
    [{code: 404, error: "not found", internal_error: 404}] with status 404.
    An assertion failure is answered with status 400 and its message as
    [error], or ["assert"] when the message is empty. *)
Theorem error_envelope (error : SuperdeskError) (msg : string) :
  ((client_error_handler error).1 !! "internal_error" = Some (status_value error) ∧
   (∀ k, k ≠ "internal_error" →
      (client_error_handler error).1 !! k = to_dict error !! k) ∧
   (∀ z, status_code error = Some z →
      status_value error = PyInt z ∧
      (client_error_handler error).2 = if (z =? 0)%Z then 422%Z else z) ∧
   (status_code error = None →
      status_value error = PyNone ∧ (client_error_handler error).2 = 422%Z)) ∧
  ((∀ z message, z ≠ 0%Z →
      client_error_handler (domain_error (Some z) message) =
        ({[ "code" := PyInt z; "error" := PyStr message;
            "internal_error" := PyInt z ]}, z)) ∧
   client_error_handler (domain_error (Some 404%Z) "not found") =
     ({[ "code" := PyInt 404; "error" := PyStr "not found";
         "internal_error" := PyInt 404 ]}, 404%Z)) ∧
  ((assert_error_handler msg).2 = 400%Z ∧
   (assert_error_handler msg).1 !! "code" = Some (PyInt 400) ∧
   (msg ≠ "" → (assert_error_handler msg).1 !! "error" = Some (PyStr msg)) ∧
   (msg = "" →
      assert_error_handler msg =
        ({[ "code" := PyInt 400; "error" := PyStr "assert" ]}, 400%Z))).
Proof.
  assert (Hdomain : ∀ z message, z ≠ 0%Z →
            client_error_handler (domain_error (Some z) message) =
              ({[ "code" := PyInt z; "error" := PyStr message;
                  "internal_error" := PyInt z ]}, z)).
  { intros z message Hz.
    unfold client_error_handler, send_response, status_value, status_or. simpl.
    destruct (Z.eqb_spec z 0) as [| _]; [done |]. simpl. f_equal. }
  unfold client_error_handler, assert_error_handler, send_response,
    status_value, status_or in *.
  split; [| split].
  - cbn [fst snd]. split; [| split; [| split]].
    + apply lookup_insert_eq.
    + intros k Hk. by apply lookup_insert_ne.
    + intros z Hz. rewrite Hz. split; [done |]. simpl.
      by destruct (Z.eqb_spec z 0).
    + by intros ->.
  - split; [exact Hdomain | by apply Hdomain].
  - cbn [fst snd]. split; [done | split; [done | split]].
    + intros Hm. rewrite (truthy_str_nonempty _ Hm). by simplify_map_eq.
    + intros ->. reflexivity.
Qed.

(** X20.  No handler of a domain error answers with a status of 0: the
    status is the error's own when that is not 0, and 422 when the error has
    none or has 0.  The handler of unhandled server faults answers as the
    handler of domain errors does for the error built from the fault, so
    its status is not 0 either and its body carries the [internal_error]
    marker. *)
Theorem error_status_never_zero (error : SuperdeskError)
    (internalError : pyval -> SuperdeskError) (fault : pyval) :
  (client_error_handler error).2 ≠ 0%Z ∧
  (∀ z, status_code error = Some z → z ≠ 0%Z → (client_error_handler error).2 = z) ∧
  (status_code error = None ∨ status_code error = Some 0%Z →
   (client_error_handler error).2 = 422%Z) ∧
  server_error_handler internalError fault = client_error_handler (internalError fault) ∧
  (server_error_handler internalError fault).2 ≠ 0%Z ∧
  (server_error_handler internalError fault).1 !! "internal_error"
    = Some (status_value (internalError fault)).
Proof.
  assert (Hstatus : ∀ err, (client_error_handler err).2 ≠ 0%Z).
  { intros err. unfold client_error_handler, send_response, status_or. simpl.
    destruct (status_code err) as [z |]; [| done].
    simpl. by destruct (Z.eqb_spec z 0). }
  split; [apply Hstatus |]. split; [| split; [| split; [| split]]].
  - intros z Hz Hnz. unfold client_error_handler, send_response, status_or.
    rewrite Hz. simpl. by destruct (Z.eqb_spec z 0).
  - unfold client_error_handler, send_response, status_or.
    by intros [-> | ->].
  - reflexivity.
  - unfold server_error_handler. apply Hstatus.
  - unfold server_error_handler, client_error_handler, send_response. simpl.
    apply lookup_insert_eq.
Qed.

(** X21.  The answer to an assertion failure has exactly the fields [code]
    and [error], and the text under [error] is never empty. *)
Theorem assert_error_text (str_error : string) :
  dom (assert_error_handler str_error).1 = {[ "code"; "error" ]} ∧
  ∃ text,
    (assert_error_handler str_error).1 !! "error" = Some (PyStr text) ∧ text ≠ "".
Proof.
  unfold assert_error_handler, send_response. simpl. split.
  - rewrite dom_insert_L, dom_singleton_L. done.
  - eexists. split; [by simplify_map_eq |].
    destruct (String.eqb_spec str_error ""); simpl; [done | done].
Qed.

(** C8 as stated fails at a status code of 0: the code is specified, and
    the answer goes out with status 422 while the marker says 0. *)
Lemma client_error_status_zero :
  client_error_handler
    {| to_dict := {[ "error" := PyStr "unknown" ]}; status_code := Some 0%Z |} =
    ({[ "error" := PyStr "unknown"; "internal_error" := PyInt 0 ]}, 422%Z).
Proof. vm_compute. reflexivity. Qed.

Lemma error_envelope_witness :
  client_error_handler (domain_error (Some 404%Z) "not found") =
    ({[ "code" := PyInt 404; "error" := PyStr "not found";
        "internal_error" := PyInt 404 ]}, 404%Z) ∧
  assert_error_handler "" =
    ({[ "code" := PyInt 400; "error" := PyStr "assert" ]}, 400%Z).
Proof.
  destruct (error_envelope (domain_error (Some 404%Z) "not found") "")
    as (_ & (_ & Hex) & _ & _ & _ & Hassert).
  split; [exact Hex | apply Hassert; reflexivity].
Defined.

End ErrorHandlers.

(** ** Storage backend selector ([get_media_storage_class]) *)

Module MediaStorage.

(** [s.rsplit(sep, 1)] when it yields two parts: what stands before the
    last [sep] and what stands after it; [None] when [sep] does not occur
    (the split then has one part and unpacking it into two names raises). *)
Fixpoint rsplit1 (sep : ascii) (s : string) : option (string * string) :=
  match s with
  | EmptyString => None
  | String c s' =>
      match rsplit1 sep s' with
      | Some (before, after) => Some (String c before, after)
      | None => if decide (c = sep) then Some (EmptyString, s') else None
      end
  end.

Example rsplit1_dotted : rsplit1 "." "myapp.storage.Amazon" = Some ("myapp.storage", "Amazon").
Proof. reflexivity. Qed.

Example rsplit1_plain : rsplit1 "." "Amazon" = None.
Proof. reflexivity. Qed.

(** What [getattr(module, class_name)] finds: a class, or something else. *)
Inductive attribute : Type :=
| AttrClass (qualname : string)
| AttrOther (v : pyval).

Definition ProxyMediaStorage : string := "superdesk.storage.ProxyMediaStorage".

Definition invalid_provider : string :=
  "Invalid setting MEDIA_STORAGE_PROVIDER. Class must extend eve.io.media.MediaStorage".

Section Select.

(** [importlib.import_module]: the namespace of the module, or an error. *)
Variable import_module : string -> result (gmap string attribute).

(** [issubclass(klass, MediaStorage)]. *)
Variable issubclass_MediaStorage : string -> bool.

Definition get_media_storage_class (app_config : gmap string pyval)
    (use_provider_config : bool) : result string :=
  if use_provider_config && truthy (dict_get app_config "MEDIA_STORAGE_PROVIDER") then
    match app_config !! "MEDIA_STORAGE_PROVIDER" with
    | Some (PyStr provider) =>
        match rsplit1 "."%char provider with
        | None => Raise (ValueError "not enough values to unpack (expected 2, got 1)")
        | Some (module_name, class_name) =>
            match import_module module_name with
            | Raise e => Raise e
            | Ok module =>
                match module !! class_name with
                | None => Raise (AttributeError class_name)
                | Some (AttrOther _) =>
                    Raise (TypeError "issubclass() arg 1 must be a class")
                | Some (AttrClass klass) =>
                    if negb (issubclass_MediaStorage klass)
                    then Raise (SystemExit invalid_provider)
                    else Ok klass
                end
            end
        end
    | _ => Ok ProxyMediaStorage
    end
  else Ok ProxyMediaStorage.

(** The provider setting names class [klass]: it is a dotted path whose
    module loads and holds a class under the last component. *)
Definition provider_resolves (app_config : gmap string pyval) (klass : string) : Prop :=
  ∃ provider module_name class_name module,
    app_config !! "MEDIA_STORAGE_PROVIDER" = Some (PyStr provider) ∧
    rsplit1 "."%char provider = Some (module_name, class_name) ∧
    import_module module_name = Ok module ∧
    module !! class_name = Some (AttrClass klass).

Lemma rsplit1_nonempty (sep : ascii) (s : string) (p : string * string) :
  rsplit1 sep s = Some p → s ≠ "".
Proof. by destruct s. Qed.

(** C6.  When the provider setting resolves to a class that is not a
    subclass of [MediaStorage], selection (with the provider setting in
    use) raises [SystemExit]; when it resolves to a subclass, that class is
    selected.  When the provider setting is not to be used, or is absent or
    empty, selection returns [ProxyMediaStorage]. *)
Theorem storage_selection (app_config : gmap string pyval) :
  (∀ klass, provider_resolves app_config klass →
     issubclass_MediaStorage klass = false →
     get_media_storage_class app_config true = Raise (SystemExit invalid_provider)) ∧
  (∀ klass, provider_resolves app_config klass →
     issubclass_MediaStorage klass = true →
     get_media_storage_class app_config true = Ok klass) ∧
  (∀ use_provider_config,
     use_provider_config = false ∨
     truthy (dict_get app_config "MEDIA_STORAGE_PROVIDER") = false →
     get_media_storage_class app_config use_provider_config = Ok ProxyMediaStorage).
Proof.
  assert (Hres : ∀ klass, provider_resolves app_config klass →
            get_media_storage_class app_config true =
            if negb (issubclass_MediaStorage klass)
            then Raise (SystemExit invalid_provider) else Ok klass).
  { intros klass (provider & mn & cn & md & Hcfg & Hsplit & Himp & Hattr).
    unfold get_media_storage_class, dict_get. rewrite Hcfg. simpl.
    destruct (String.eqb_spec provider "") as [-> | _]; [done |]. simpl.
    by rewrite Hsplit, Himp, Hattr. }
  split; [| split].
  - intros klass Hk Hsub. by rewrite (Hres _ Hk), Hsub.
  - intros klass Hk Hsub. by rewrite (Hres _ Hk), Hsub.
  - intros b [-> | Hfalsy]; unfold get_media_storage_class; [done |].
    rewrite Hfalsy. by rewrite andb_false_r.
Qed.

(** *** Splitting the dotted path *)

Lemma rsplit1_absent (sep : ascii) (s : string) :
  sep ∉ list_ascii_of_string s → rsplit1 sep s = None.
Proof.
  induction s as [| c s IH]; [done |]. simpl. intros Hnot.
  apply not_elem_of_cons in Hnot as [Hne Hnot]. rewrite (IH Hnot).
  by rewrite decide_False by congruence.
Qed.

(** X14.  [rsplit1] splits at the last separator and nowhere else: when it
    yields two parts, the string is the first part, the separator and the
    second part, and the second part holds no separator; it yields nothing
    exactly when the string holds no separator. *)
Theorem rsplit1_round_trip (sep : ascii) (s : string) :
  match rsplit1 sep s with
  | Some (before, after) =>
      s = before +:+ String sep after ∧ sep ∉ list_ascii_of_string after
  | None => sep ∉ list_ascii_of_string s
  end.
Proof.
  induction s as [| c s IH]; simpl; [apply not_elem_of_nil |].
  destruct (rsplit1 sep s) as [[before after] |].
  - destruct IH as [-> Hafter]. by split.
  - case_decide as Hc.
    + subst c. by split.
    + apply not_elem_of_cons. by split.
Qed.

(** X15.  Selection never yields a class that fails the check: what it
    returns is [ProxyMediaStorage] or a subclass of [MediaStorage]. *)
Theorem get_media_storage_class_sound (app_config : gmap string pyval)
    (use_provider_config : bool) (klass : string) :
  get_media_storage_class app_config use_provider_config = Ok klass →
  klass = ProxyMediaStorage ∨ issubclass_MediaStorage klass = true.
Proof.
  unfold get_media_storage_class.
  destruct (use_provider_config &&
            truthy (dict_get app_config "MEDIA_STORAGE_PROVIDER"));
    [| intros [= <-]; by left].
  destruct (app_config !! "MEDIA_STORAGE_PROVIDER") as [[| | | provider | | |] |];
    try (intros [= <-]; by left).
  destruct (rsplit1 "." provider) as [[module_name class_name] |]; [| done].
  destruct (import_module module_name) as [module | e]; [| done].
  destruct (module !! class_name) as [[k | v] |]; [| done | done].
  destruct (issubclass_MediaStorage k) eqn:Hsub; [| done].
  intros [= <-]. by right.
Qed.

(** X16.  A provider string that cannot be resolved does not fall back to
    the proxy: without a dot the unpacking raises [ValueError]; a module
    that does not load raises the import's error; a module without the
    named attribute raises [AttributeError]; an attribute that is not a
    class raises [TypeError]. *)
Theorem storage_selection_errors (app_config : gmap string pyval) (provider : string) :
  app_config !! "MEDIA_STORAGE_PROVIDER" = Some (PyStr provider) → provider ≠ "" →
  ("."%char ∉ list_ascii_of_string provider →
   ∃ msg, get_media_storage_class app_config true = Raise (ValueError msg)) ∧
  (∀ module_name class_name,
     rsplit1 "." provider = Some (module_name, class_name) →
     (∀ e, import_module module_name = Raise e →
        get_media_storage_class app_config true = Raise e) ∧
     (∀ module, import_module module_name = Ok module →
        (module !! class_name = None →
         get_media_storage_class app_config true = Raise (AttributeError class_name)) ∧
        (∀ v, module !! class_name = Some (AttrOther v) →
           ∃ msg, get_media_storage_class app_config true = Raise (TypeError msg)))).
Proof.
  intros Hcfg Hne.
  assert (Hrun : get_media_storage_class app_config true =
            match rsplit1 "." provider with
            | None => Raise (ValueError "not enough values to unpack (expected 2, got 1)")
            | Some (module_name, class_name) =>
                match import_module module_name with
                | Raise e => Raise e
                | Ok module =>
                    match module !! class_name with
                    | None => Raise (AttributeError class_name)
                    | Some (AttrOther _) =>
                        Raise (TypeError "issubclass() arg 1 must be a class")
                    | Some (AttrClass klass) =>
                        if negb (issubclass_MediaStorage klass)
                        then Raise (SystemExit invalid_provider)
                        else Ok klass
                    end
                end
            end).
  { unfold get_media_storage_class, dict_get. rewrite Hcfg. simpl.
    destruct (String.eqb_spec provider "") as [-> | _]; done. }
  rewrite Hrun. split.
  - intros Hdot. rewrite (rsplit1_absent _ _ Hdot). by eexists.
  - intros module_name class_name ->. split.
    + by intros e ->.
    + intros module ->. split; [by intros -> |]. intros v ->. by eexists.
Qed.

(** X17.  A provider setting that is not a string (a class object, say) is
    passed over without a word: selection returns [ProxyMediaStorage]. *)
Theorem provider_not_a_string (app_config : gmap string pyval)
    (use_provider_config : bool) (v : pyval) :
  app_config !! "MEDIA_STORAGE_PROVIDER" = Some v → (∀ p, v ≠ PyStr p) →
  get_media_storage_class app_config use_provider_config = Ok ProxyMediaStorage.
Proof.
  intros Hcfg Hv. unfold get_media_storage_class. rewrite Hcfg.
  destruct (use_provider_config &&
            truthy (dict_get app_config "MEDIA_STORAGE_PROVIDER")); [| done].
  destruct v; try done. by destruct (Hv s).
Qed.

End Select.

(** A process with one module, [myapp.storage], holding a class that
    extends [MediaStorage] and one that does not. *)
Definition demo_modules (module_name : string) : result (gmap string attribute) :=
  if decide (module_name = "myapp.storage") then
    Ok {[ "GoodStorage" := AttrClass "myapp.storage.GoodStorage";
          "BadStorage" := AttrClass "myapp.storage.BadStorage" ]}
  else Raise (ImportError module_name).

Definition demo_issubclass (klass : string) : bool :=
  bool_decide (klass = "myapp.storage.GoodStorage").

Lemma storage_selection_witness :
  get_media_storage_class demo_modules demo_issubclass
    {[ "MEDIA_STORAGE_PROVIDER" := PyStr "myapp.storage.BadStorage" ]} true
  = Raise (SystemExit invalid_provider) ∧
  get_media_storage_class demo_modules demo_issubclass ∅ true = Ok ProxyMediaStorage.
Proof.
  split.
  - refine (proj1 (storage_selection demo_modules demo_issubclass _)
              "myapp.storage.BadStorage" _ _); [| reflexivity].
    exists "myapp.storage.BadStorage", "myapp.storage", "BadStorage",
      {[ "GoodStorage" := AttrClass "myapp.storage.GoodStorage";
         "BadStorage" := AttrClass "myapp.storage.BadStorage" ]}.
    repeat split.
  - refine (proj2 (proj2 (storage_selection demo_modules demo_issubclass ∅)) true _).
    right. reflexivity.
Defined.

Lemma get_media_storage_class_sound_witness :
  "myapp.storage.GoodStorage" = ProxyMediaStorage ∨
  demo_issubclass "myapp.storage.GoodStorage" = true.
Proof.
  exact (get_media_storage_class_sound demo_modules demo_issubclass
           {[ "MEDIA_STORAGE_PROVIDER" := PyStr "myapp.storage.GoodStorage" ]}
           true "myapp.storage.GoodStorage" eq_refl).
Defined.

Lemma storage_selection_errors_witness :
  get_media_storage_class demo_modules demo_issubclass
    {[ "MEDIA_STORAGE_PROVIDER" := PyStr "other.storage.Amazon" ]} true
  = Raise (ImportError "other.storage") ∧
  get_media_storage_class demo_modules demo_issubclass
    {[ "MEDIA_STORAGE_PROVIDER" := PyStr "myapp.storage.Amazon" ]} true
  = Raise (AttributeError "Amazon").
Proof.
  split.
  - refine (proj1 (proj2 (storage_selection_errors demo_modules demo_issubclass
              {[ "MEDIA_STORAGE_PROVIDER" := PyStr "other.storage.Amazon" ]}
              "other.storage.Amazon" eq_refl _) "other.storage" "Amazon" eq_refl)
              (ImportError "other.storage") eq_refl).
    discriminate.
  - refine (proj1 (proj2 (proj2 (storage_selection_errors demo_modules demo_issubclass
              {[ "MEDIA_STORAGE_PROVIDER" := PyStr "myapp.storage.Amazon" ]}
              "myapp.storage.Amazon" eq_refl _) "myapp.storage" "Amazon" eq_refl)
              _ eq_refl) eq_refl).
    discriminate.
Defined.

Lemma provider_not_a_string_witness :
  get_media_storage_class demo_modules demo_issubclass
    {[ "MEDIA_STORAGE_PROVIDER" := PyClass "myapp.storage.BadStorage" ]} true
  = Ok ProxyMediaStorage.
Proof.
  refine (provider_not_a_string demo_modules demo_issubclass
            {[ "MEDIA_STORAGE_PROVIDER" := PyClass "myapp.storage.BadStorage" ]} true
            (PyClass "myapp.storage.BadStorage") eq_refl _).
  discriminate.
Defined.

End MediaStorage.

(** ** Configuration resolver (lines 171-184 of [get_app]) *)

Module Config.

Definition is_upper_ascii (c : ascii) : bool :=
  (65 <=? nat_of_ascii c)%nat && (nat_of_ascii c <=? 90)%nat.

Definition is_lower_ascii (c : ascii) : bool :=
  (97 <=? nat_of_ascii c)%nat && (nat_of_ascii c <=? 122)%nat.

(** [key.isupper()] for a name written in ASCII: no lower-case letter and at
    least one upper-case letter. *)
Definition isupper_ascii (key : string) : bool :=
  forallb (λ c, negb (is_lower_ascii c)) (list_ascii_of_string key) &&
  existsb is_upper_ascii (list_ascii_of_string key).

(** Every character of the name is an ASCII character. *)
Definition is_ascii (key : string) : bool :=
  forallb (λ c, (nat_of_ascii c <? 128)%nat) (list_ascii_of_string key).

Example isupper_setting : isupper_ascii "DEFAULT_LANGUAGE" = true.
Proof. reflexivity. Qed.

Example isupper_method : isupper_ascii "from_object" = false.
Proof. reflexivity. Qed.

Example isupper_uncased : isupper_ascii "__" = false.
Proof. reflexivity. Qed.

Section Resolve.

(** [key.isupper()]: Python's test, which knows the case of every Unicode
    character.  A name is held as the bytes of its UTF-8 form, and the test
    is taken as it is; on names written in ASCII it is [isupper_ascii]. *)
Variable isupper : string -> bool.

Definition isupper_on_ascii : Prop :=
  ∀ key, is_ascii key = true → isupper key = isupper_ascii key.

(** [flask.Config.from_object(obj)]: every attribute of the object whose
    name [isupper] accepts is stored under its name.  [obj] is the object's
    namespace. *)
Definition from_object (obj : gmap string pyval) (app_config : gmap string pyval)
  : gmap string pyval :=
  filter (λ kv, isupper kv.1 = true) obj ∪ app_config.

(** [dict.update(mapping)]. *)
Definition update (mapping : gmap string pyval) (app_config : gmap string pyval)
  : gmap string pyval :=
  mapping ∪ app_config.

(** The [config] argument of [get_app]: missing, a mapping, or an object
    (on which [dict.update] raises [TypeError] before it stores anything). *)
Inductive config_arg : Type :=
| ConfigNone
| ConfigMapping (mapping : gmap string pyval)
| ConfigObject (obj : gmap string pyval).

(** The configuration as it stands after line 184.  [default_settings] is
    the namespace of [superdesk.default_settings], [config_object] the
    namespace of the object to load, if one is given. *)
Definition resolve_config (abs_path : string) (default_settings : gmap string pyval)
    (config : config_arg) (config_object : option (gmap string pyval))
  : gmap string pyval :=
  let app_config := from_object default_settings ∅ in
  let app_config := setdefault "APP_ABSPATH" (PyStr abs_path) app_config in
  let app_config := setdefault "DOMAIN" (PyDict []) app_config in
  let app_config := setdefault "SOURCES" (PyDict []) app_config in
  let app_config :=
    match config_object with
    | Some obj => from_object obj app_config
    | None => app_config
    end in
  match config with
  | ConfigNone => update ∅ app_config
  | ConfigMapping mapping => update mapping app_config
  | ConfigObject obj => from_object obj app_config
  end.

Lemma from_object_lookup (obj cfg : gmap string pyval) (key : string) (v : pyval) :
  isupper key = true → obj !! key = Some v → from_object obj cfg !! key = Some v.
Proof.
  intros Hup Hobj. unfold from_object. apply lookup_union_Some_l.
  by apply map_lookup_filter_Some.
Qed.

Lemma from_object_skip (obj cfg : gmap string pyval) (key : string) :
  isupper key = false → from_object obj cfg !! key = cfg !! key.
Proof.
  intros Hlow. unfold from_object. apply lookup_union_r.
  apply map_lookup_filter_None. right. intros v _. simpl. by rewrite Hlow.
Qed.

Lemma update_lookup (mapping cfg : gmap string pyval) (key : string) (v : pyval) :
  mapping !! key = Some v → update mapping cfg !! key = Some v.
Proof. intros Hm. unfold update. by apply lookup_union_Some_l. Qed.

Lemma update_empty (cfg : gmap string pyval) : update ∅ cfg = cfg.
Proof. unfold update. apply (left_id_L ∅ (∪)). Qed.

(** C2.  For a key that the config object sets (an attribute whose name
    [isupper] accepts) and that the override mapping holds too, the
    resolved configuration has the value of the override mapping, where
    without the override it has the value of the object.  An override given
    as an object wins in the same way for every such attribute it has. *)
Theorem override_precedence (abs_path : string)
    (default_settings obj mapping : gmap string pyval)
    (key : string) (v_obj v_over : pyval) :
  isupper key = true → obj !! key = Some v_obj → mapping !! key = Some v_over →
  resolve_config abs_path default_settings (ConfigMapping mapping) (Some obj) !! key
    = Some v_over ∧
  resolve_config abs_path default_settings ConfigNone (Some obj) !! key
    = Some v_obj ∧
  resolve_config abs_path default_settings (ConfigObject mapping) (Some obj) !! key
    = Some v_over.
Proof.
  intros Hup Hobj Hmap. unfold resolve_config. split; [| split].
  - by apply update_lookup.
  - rewrite update_empty. by apply from_object_lookup.
  - by apply from_object_lookup.
Qed.

(** *** The layers of the resolved configuration *)

(** The attributes of an object with an upper-case name: what
    [from_object] stores. *)
Definition upper_attributes (obj : gmap string pyval) : gmap string pyval :=
  filter (λ kv, isupper kv.1 = true) obj.

(** What the [config] argument contributes. *)
Definition override_layer (config : config_arg) : gmap string pyval :=
  match config with
  | ConfigNone => ∅
  | ConfigMapping mapping => mapping
  | ConfigObject obj => upper_attributes obj
  end.

(** The three settings that [get_app] supplies when nothing else does. *)
Definition builtin_defaults (abs_path : string) : gmap string pyval :=
  {[ "APP_ABSPATH" := PyStr abs_path ]} ∪
  ({[ "DOMAIN" := PyDict [] ]} ∪ {[ "SOURCES" := PyDict [] ]}).

Lemma setdefault_union {V : Type} (key : string) (value : V) (d : gmap string V) :
  setdefault key value d = d ∪ {[ key := value ]}.
Proof.
  unfold setdefault. destruct (d !! key) as [v |] eqn:Hd.
  - apply map_eq. intros j. rewrite lookup_union.
    destruct (decide (j = key)) as [-> | Hne].
    + by rewrite Hd, lookup_singleton_eq.
    + rewrite lookup_singleton_ne by done. by destruct (d !! j).
  - by apply insert_union_singleton_r.
Qed.

Lemma setdefault_lookup_ne {V : Type} (key j : string) (value : V) (d : gmap string V) :
  j ≠ key → setdefault key value d !! j = d !! j.
Proof.
  intros Hne. unfold setdefault. destruct (d !! key); [done |].
  by apply lookup_insert_ne.
Qed.

Lemma setdefault_is_Some {V : Type} (key j : string) (value : V) (d : gmap string V) :
  j = key ∨ is_Some (d !! j) → is_Some (setdefault key value d !! j).
Proof.
  unfold setdefault. intros [-> | Hj].
  - destruct (d !! key) eqn:Hd; [by rewrite Hd | rewrite lookup_insert_eq; eauto].
  - destruct (d !! key); [done |]. destruct (decide (j = key)) as [-> | Hne].
    + rewrite lookup_insert_eq. eauto.
    + by rewrite lookup_insert_ne.
Qed.

(** X18.  The resolved configuration is the left-biased union of four
    layers: what the [config] argument contributes, over the upper-case
    attributes of the config object, over those of the default settings,
    over the three built-in defaults.  So for every key the first layer
    that has it decides. *)
Theorem resolve_config_layers (abs_path : string)
    (default_settings : gmap string pyval) (config : config_arg)
    (config_object : option (gmap string pyval)) :
  resolve_config abs_path default_settings config config_object =
  override_layer config ∪
  (default ∅ (upper_attributes <$> config_object) ∪
   (upper_attributes default_settings ∪ builtin_defaults abs_path)).
Proof.
  unfold resolve_config, from_object, update, builtin_defaults.
  rewrite !setdefault_union. fold (upper_attributes default_settings).
  rewrite (right_id_L ∅ (∪)). rewrite <- !(assoc_L (∪)).
  destruct config_object as [obj |]; simpl; unfold id;
    destruct config as [| mapping | obj']; simpl;
    rewrite ?(left_id_L ∅ (∪)); reflexivity.
Qed.

(** Whatever the inputs, the resolved configuration has the settings
    [APP_ABSPATH], [DOMAIN] and [SOURCES]. *)
Theorem resolve_config_required_keys (abs_path : string)
    (default_settings : gmap string pyval) (config : config_arg)
    (config_object : option (gmap string pyval)) (key : string) :
  key ∈ ["APP_ABSPATH"; "DOMAIN"; "SOURCES"] →
  is_Some (resolve_config abs_path default_settings config config_object !! key).
Proof.
  intros Hkey. unfold resolve_config.
  set (base := setdefault "SOURCES" _ (setdefault "DOMAIN" _ (setdefault "APP_ABSPATH" _ _))).
  assert (Hbase : is_Some (base !! key)).
  { subst base.
    apply elem_of_cons in Hkey as [-> | Hkey].
    { do 2 (apply setdefault_is_Some; right). apply setdefault_is_Some. by left. }
    apply elem_of_cons in Hkey as [-> | Hkey].
    { apply setdefault_is_Some; right. apply setdefault_is_Some. by left. }
    apply elem_of_cons in Hkey as [-> | Hkey].
    { apply setdefault_is_Some. by left. }
    by apply elem_of_nil in Hkey. }
  assert (Hobj : ∀ obj cfg, is_Some (cfg !! key) → is_Some (from_object obj cfg !! key)).
  { intros obj cfg Hc. unfold from_object. apply lookup_union_is_Some. by right. }
  assert (Hlayer : is_Some (match config_object with
                            | Some obj => from_object obj base
                            | None => base
                            end !! key)).
  { destruct config_object; [by apply Hobj | done]. }
  destruct config as [| mapping | obj'].
  - unfold update. apply lookup_union_is_Some. by right.
  - unfold update. apply lookup_union_is_Some. by right.
  - by apply Hobj.
Qed.

(** X19.  A name that [isupper] does not accept is never taken from a
    settings object: it is in the resolved configuration only when the
    [config] argument is a mapping that holds it, with the mapping's
    value. *)
Theorem resolve_config_lower_case (abs_path : string)
    (default_settings : gmap string pyval) (config : config_arg)
    (config_object : option (gmap string pyval)) (key : string) :
  isupper_on_ascii →
  isupper key = false →
  resolve_config abs_path default_settings config config_object !! key =
  match config with
  | ConfigMapping mapping => mapping !! key
  | _ => None
  end.
Proof.
  intros Hascii Hlow. unfold resolve_config.
  set (base := setdefault "SOURCES" _ (setdefault "DOMAIN" _ (setdefault "APP_ABSPATH" _ _))).
  assert (Hbase : base !! key = None).
  { subst base.
    rewrite !setdefault_lookup_ne
      by (intros ->; rewrite Hascii in Hlow by reflexivity; discriminate Hlow).
    by rewrite from_object_skip. }
  assert (Hlayer : match config_object with
                   | Some obj => from_object obj base
                   | None => base
                   end !! key = None).
  { destruct config_object; [by rewrite from_object_skip | done]. }
  destruct config as [| mapping | obj'].
  - by rewrite update_empty.
  - unfold update. rewrite lookup_union, Hlayer. by destruct (mapping !! key).
  - by rewrite from_object_skip.
Qed.

End Resolve.

Lemma isupper_ascii_on_ascii : isupper_on_ascii isupper_ascii.
Proof. by intros key _. Qed.

Lemma override_precedence_witness :
  resolve_config isupper_ascii "/srv/superdesk" {[ "DEFAULT_LANGUAGE" := PyStr "en" ]}
    (ConfigMapping {[ "DEFAULT_LANGUAGE" := PyStr "fr" ]})
    (Some {[ "DEFAULT_LANGUAGE" := PyStr "de" ]}) !! "DEFAULT_LANGUAGE"
  = Some (PyStr "fr").
Proof.
  refine (proj1 (override_precedence isupper_ascii "/srv/superdesk"
            {[ "DEFAULT_LANGUAGE" := PyStr "en" ]}
            {[ "DEFAULT_LANGUAGE" := PyStr "de" ]}
            {[ "DEFAULT_LANGUAGE" := PyStr "fr" ]}
            "DEFAULT_LANGUAGE" (PyStr "de") (PyStr "fr") _ _ _)); reflexivity.
Defined.

Lemma resolve_config_required_keys_witness :
  is_Some (resolve_config isupper_ascii "/srv/superdesk" ∅ ConfigNone None !! "DOMAIN").
Proof.
  apply (resolve_config_required_keys isupper_ascii "/srv/superdesk" ∅ ConfigNone None "DOMAIN").
  apply list_elem_of_further, list_elem_of_here.
Defined.

Lemma resolve_config_lower_case_witness :
  resolve_config isupper_ascii "/srv/superdesk" {[ "debug" := PyBool true ]}
    (ConfigObject {[ "debug" := PyBool true ]})
    (Some {[ "debug" := PyBool true ]}) !! "debug" = None ∧
  resolve_config isupper_ascii "/srv/superdesk" ∅
    (ConfigMapping {[ "debug" := PyBool true ]}) None !! "debug" = Some (PyBool true).
Proof.
  split.
  - exact (resolve_config_lower_case isupper_ascii "/srv/superdesk"
             {[ "debug" := PyBool true ]}
             (ConfigObject {[ "debug" := PyBool true ]})
             (Some {[ "debug" := PyBool true ]}) "debug"
             isupper_ascii_on_ascii eq_refl).
  - exact (resolve_config_lower_case isupper_ascii "/srv/superdesk" ∅
             (ConfigMapping {[ "debug" := PyBool true ]}) None "debug"
             isupper_ascii_on_ascii eq_refl).
Defined.

End Config.

(** ** Resource registry: the catalog merge (lines 267-270 of [get_app]) *)

Module Registry.
Section Merge.

(** A resource definition. *)
Variable Resource : Type.

(** [app.register_resource(resource, settings)] of Eve, seen through its
    effect on [app.config["DOMAIN"]]; it returns or raises. *)
Variable register_resource :
  gmap string Resource -> string -> Resource -> gmap string Resource * outcome.

(** Registering a resource leaves the entries under other names alone. *)
Definition register_frame : Prop :=
  ∀ domain resource settings k,
    k ≠ resource →
    (register_resource domain resource settings).1 !! k = domain !! k.

(** The domain set, and the calls of [register_resource] made so far. *)
Record state : Type := mkState {
  DOMAIN : gmap string Resource;
  registered : list (string * Resource)
}.

(** [for resource in superdesk.DOMAIN: if resource not in
    app.config["DOMAIN"]: app.register_resource(resource,
    superdesk.DOMAIN[resource])].  The catalog is a dictionary, given by its
    items in iteration order. *)
Fixpoint merge_catalog (catalog : list (string * Resource)) (s : state)
  : state * outcome :=
  match catalog with
  | [] => (s, Returned)
  | (resource, settings) :: catalog' =>
      match DOMAIN s !! resource with
      | Some _ => merge_catalog catalog' s
      | None =>
          let s1 :=
            mkState (register_resource (DOMAIN s) resource settings).1
                    (registered s ++ [(resource, settings)]) in
          match (register_resource (DOMAIN s) resource settings).2 with
          | Returned => merge_catalog catalog' s1
          | Raised e => (s1, Raised e)
          end
      end
  end.

(** [app.config.setdefault("DOMAIN", {})] and the loop, from the domain
    set the configuration holds ([None] when it holds none). *)
Definition register_catalog (domain : option (gmap string Resource))
    (catalog : list (string * Resource)) : state * outcome :=
  merge_catalog catalog (mkState (default ∅ domain) []).

Lemma merge_catalog_frame (catalog : list (string * Resource)) :
  register_frame →
  ∀ (s s' : state) (o : outcome),
    merge_catalog catalog s = (s', o) →
    (∀ k r, DOMAIN s !! k = Some r → DOMAIN s' !! k = Some r) ∧
    (∀ k, DOMAIN s !! k = None → k ∉ catalog.*1 → DOMAIN s' !! k = None) ∧
    (∀ c, c ∈ registered s' →
       c ∈ registered s ∨ (c ∈ catalog ∧ DOMAIN s !! c.1 = None)).
Proof.
  intros Hframe. induction catalog as [| [resource settings] catalog IH];
    intros s s' o; simpl.
  - intros [= <- <-]. repeat split; [done | done | by left].
  - destruct (DOMAIN s !! resource) as [r0 |] eqn:Hdom.
    + intros Hrun. destruct (IH _ _ _ Hrun) as (Hkeep & Hnew & Hcalls).
      repeat split; [done | |].
      * intros k Hk Hnot. apply Hnew; [done |].
        intros Hin. apply Hnot. by right.
      * intros c Hc. destruct (Hcalls c Hc) as [? | [? ?]]; [by left |].
        right. split; [by right | done].
    + assert (Hother : ∀ k, k ≠ resource →
                (register_resource (DOMAIN s) resource settings).1 !! k
                = DOMAIN s !! k) by (intros; by apply Hframe).
      assert (Hstep :
        ∀ s1, DOMAIN s1 = (register_resource (DOMAIN s) resource settings).1 →
              registered s1 = registered s ++ [(resource, settings)] →
          (∀ k r, DOMAIN s !! k = Some r → DOMAIN s1 !! k = Some r) ∧
          (∀ k, DOMAIN s !! k = None → k ≠ resource → DOMAIN s1 !! k = None) ∧
          (∀ c, c ∈ registered s1 → c ∈ registered s ∨ c = (resource, settings))).
      { intros s1 -> ->. repeat split.
        - intros k r Hk. rewrite Hother; [done |]. intros ->. congruence.
        - intros k Hk Hne. by rewrite Hother.
        - intros c Hc. apply elem_of_app in Hc as [Hc | Hc]; [by left |].
          right. by apply list_elem_of_singleton in Hc. }
      specialize (Hstep (mkState (register_resource (DOMAIN s) resource settings).1
                                 (registered s ++ [(resource, settings)]))
                        eq_refl eq_refl).
      destruct Hstep as (Hkeep1 & Hnew1 & Hcalls1).
      destruct ((register_resource (DOMAIN s) resource settings).2) as [| e].
      * intros Hrun. destruct (IH _ _ _ Hrun) as (Hkeep & Hnew & Hcalls).
        repeat split.
        -- intros k r Hk. apply Hkeep. by apply Hkeep1.
        -- intros k Hk Hnot. apply Hnew.
           ++ apply Hnew1; [done |]. intros ->. apply Hnot. by left.
           ++ intros Hin. apply Hnot. by right.
        -- intros c Hc. destruct (Hcalls c Hc) as [Hc1 | [Hc1 Hc2]].
           ++ destruct (Hcalls1 c Hc1) as [? | ->]; [by left |].
              right. split; [by left | done].
           ++ right. split; [by right |].
              destruct (DOMAIN s !! c.1) as [r |] eqn:Hc3; [| done].
              apply Hkeep1 in Hc3. simpl in Hc2, Hc3. congruence.
      * intros [= <- <-].
        repeat split; [done | |].
        -- intros k Hk Hnot. apply Hnew1; [done |].
           intros ->. apply Hnot. by left.
        -- intros c Hc. destruct (Hcalls1 c Hc) as [? | ->]; [by left |].
           right. split; [by left | done].
Qed.

(** C3.  The catalog merge does not clobber: a resource that the domain
    set holds before the merge has the same definition after it; a name
    that is neither in the domain set nor in the catalog is not in the
    domain set afterwards; and [register_resource] is called only for
    catalog entries whose name the domain set did not hold. *)
Theorem merge_keeps_configured (domain : gmap string Resource)
    (catalog : list (string * Resource)) (s' : state) (o : outcome) :
  register_frame →
  register_catalog (Some domain) catalog = (s', o) →
  (∀ name r, domain !! name = Some r → DOMAIN s' !! name = Some r) ∧
  (∀ name, domain !! name = None → name ∉ catalog.*1 → DOMAIN s' !! name = None) ∧
  (∀ name settings, (name, settings) ∈ registered s' →
     (name, settings) ∈ catalog ∧ domain !! name = None).
Proof.
  intros Hframe Hrun. unfold register_catalog in Hrun. simpl in Hrun.
  destruct (merge_catalog_frame catalog Hframe _ _ _ Hrun) as (Hkeep & Hnew & Hcalls).
  split; [exact Hkeep |]. split; [exact Hnew |].
  intros name settings Hin.
  destruct (Hcalls _ Hin) as [Hc | Hc]; [| exact Hc].
  simpl in Hc. by apply elem_of_nil in Hc.
Qed.

(** *** After the merge *)

(** Registering a resource puts an entry under its name. *)
Definition register_adds : Prop :=
  ∀ domain resource settings,
    is_Some ((register_resource domain resource settings).1 !! resource).

Lemma merge_catalog_present (catalog : list (string * Resource)) (s : state) :
  (∀ name, name ∈ catalog.*1 → is_Some (DOMAIN s !! name)) →
  merge_catalog catalog s = (s, Returned).
Proof.
  induction catalog as [| [resource settings] catalog IH]; intros Hall; [done |].
  simpl. destruct (Hall resource) as [r ->]; [by left |].
  apply IH. intros name Hin. apply Hall. by right.
Qed.

Lemma merge_catalog_all (catalog : list (string * Resource)) :
  register_frame → register_adds →
  ∀ (s s' : state),
    merge_catalog catalog s = (s', Returned) →
    (∀ k, is_Some (DOMAIN s !! k) → is_Some (DOMAIN s' !! k)) ∧
    (∀ name, name ∈ catalog.*1 → is_Some (DOMAIN s' !! name)).
Proof.
  intros Hframe Hadds.
  induction catalog as [| [resource settings] catalog IH]; intros s s'; simpl.
  - intros [= <-]. split; [done |]. intros name Hin. by apply elem_of_nil in Hin.
  - destruct (DOMAIN s !! resource) as [r0 |] eqn:Hdom.
    + intros Hrun. destruct (IH _ _ Hrun) as [Hkeep Hall]. split; [done |].
      intros name Hin. apply elem_of_cons in Hin as [-> | Hin]; [| by apply Hall].
      apply Hkeep. rewrite Hdom. eauto.
    + destruct ((register_resource (DOMAIN s) resource settings).2) as [| e] eqn:Hreg;
        [| done].
      intros Hrun. destruct (IH _ _ Hrun) as [Hkeep Hall]. cbn [DOMAIN] in Hkeep.
      split.
      * intros k Hk. apply Hkeep. rewrite Hframe; [done |].
        intros ->. rewrite Hdom in Hk. by destruct Hk.
      * intros name Hin. apply elem_of_cons in Hin as [-> | Hin]; [| by apply Hall].
        apply Hkeep. apply Hadds.
Qed.

(** X22.  When the merge returns, every resource of the catalog is in the
    domain set (given that registering a resource puts an entry under its
    name and touches no other name). *)
Theorem merge_registers_all (domain : option (gmap string Resource))
    (catalog : list (string * Resource)) (s' : state) :
  register_frame → register_adds →
  register_catalog domain catalog = (s', Returned) →
  ∀ name, name ∈ catalog.*1 → is_Some (DOMAIN s' !! name).
Proof.
  intros Hframe Hadds Hrun.
  by destruct (merge_catalog_all catalog Hframe Hadds _ _ Hrun).
Qed.

(** X23.  The merge is idempotent: run again on the state it produced, it
    registers nothing and changes nothing. *)
Theorem merge_catalog_idempotent (domain : option (gmap string Resource))
    (catalog : list (string * Resource)) (s' : state) :
  register_frame → register_adds →
  register_catalog domain catalog = (s', Returned) →
  merge_catalog catalog s' = (s', Returned).
Proof.
  intros Hframe Hadds Hrun. apply merge_catalog_present.
  by destruct (merge_catalog_all catalog Hframe Hadds _ _ Hrun).
Qed.

End Merge.

Arguments mkState {Resource} _ _.
Arguments DOMAIN {Resource} _.
Arguments registered {Resource} _.

(** A resource definition reduced to its schema, and a registration that
    stores the settings as they are. *)
Record resource_def : Type := { schema : gmap string Z }.

Definition store_verbatim (domain : gmap string resource_def) (resource : string)
    (settings : resource_def) : gmap string resource_def * outcome :=
  (<[resource := settings]> domain, Returned).

Lemma merge_keeps_configured_witness :
  DOMAIN (register_catalog resource_def store_verbatim
            (Some {[ "R" := {| schema := {[ "a" := 1%Z ]} |} ]})
            [("R", {| schema := {[ "b" := 1%Z ]} |})]).1 !! "R"
  = Some {| schema := {[ "a" := 1%Z ]} |}.
Proof.
  refine (proj1 (merge_keeps_configured resource_def store_verbatim
            {[ "R" := {| schema := {[ "a" := 1%Z ]} |} ]}
            [("R", {| schema := {[ "b" := 1%Z ]} |})] _ Returned _ _) "R" _ _).
  - intros domain resource settings k Hk. unfold store_verbatim. simpl.
    by apply lookup_insert_ne.
  - reflexivity.
  - reflexivity.
Defined.

Lemma store_verbatim_frame : register_frame resource_def store_verbatim.
Proof.
  intros domain resource settings k Hk. unfold store_verbatim. simpl.
  by apply lookup_insert_ne.
Qed.

Lemma store_verbatim_adds : register_adds resource_def store_verbatim.
Proof.
  intros domain resource settings. unfold store_verbatim. simpl.
  rewrite lookup_insert_eq. eauto.
Qed.

Definition demo_catalog : list (string * resource_def) :=
  [("R", {| schema := {[ "b" := 1%Z ]} |}); ("S", {| schema := {[ "c" := 1%Z ]} |})].

Lemma merge_registers_all_witness :
  is_Some (DOMAIN (register_catalog resource_def store_verbatim
                     (Some {[ "R" := {| schema := {[ "a" := 1%Z ]} |} ]})
                     demo_catalog).1 !! "S").
Proof.
  refine (merge_registers_all resource_def store_verbatim
            (Some {[ "R" := {| schema := {[ "a" := 1%Z ]} |} ]}) demo_catalog _
            store_verbatim_frame store_verbatim_adds eq_refl "S" _).
  apply list_elem_of_further, list_elem_of_here.
Defined.

Lemma merge_catalog_idempotent_witness :
  merge_catalog resource_def store_verbatim demo_catalog
    (register_catalog resource_def store_verbatim None demo_catalog).1
  = ((register_catalog resource_def store_verbatim None demo_catalog).1, Returned).
Proof.
  exact (merge_catalog_idempotent resource_def store_verbatim None demo_catalog _
           store_verbatim_frame store_verbatim_adds eq_refl).
Defined.

End Registry.

(** ** Index manager ([SuperdeskEve.init_indexes]) *)

Module Indexes.

(** A value of the [mongo_indexes__init] dictionary: a bare list of keys, a
    pair of a list of keys and options, or a tuple of another length (whose
    unpacking into two names raises [ValueError]). *)
Inductive index_value : Type :=
| IndexKeys (list_of_keys : list (string * Z))
| IndexPair (list_of_keys : list (string * Z)) (index_options : gmap string pyval)
| IndexTuple (length : nat).

(** A resource configuration, as far as [init_indexes] reads it:
    [resource_config.get("mongo_indexes__init")], its items in order. *)
Record resource_config : Type := {
  mongo_indexes__init : option (list (string * index_value))
}.

(** What the logger received. *)
Inductive log_entry : Type :=
| LogWarning (resource : string)   (* "resource config missing for %s" *)
| LogException (err : exn).

Section Init.

(** The state of the data layer, and Eve's [_create_index] on it. *)
Variable Store : Type.
Variable create_index :
  Store -> string -> string -> list (string * Z) -> gmap string pyval ->
  Store * outcome.

Record state : Type := mkState {
  store : Store;
  log : list log_entry
}.

(** Lines 105-112: the key list and the options of an index, with
    [background] defaulting to [True]. *)
Definition index_arguments (value : index_value)
  : result (list (string * Z) * gmap string pyval) :=
  match value with
  | IndexKeys list_of_keys =>
      Ok (list_of_keys, setdefault "background" (PyBool true) ∅)
  | IndexPair list_of_keys index_options =>
      Ok (list_of_keys, setdefault "background" (PyBool true) index_options)
  | IndexTuple _ => Raise (ValueError "cannot unpack the index value")
  end.

(** The body of the inner loop for one index (lines 105-126). *)
Definition init_index (ignore_duplicate_keys : bool) (resource name : string)
    (value : index_value) (s : state) : state * outcome :=
  match index_arguments value with
  | Raise e => (s, Raised e)
  | Ok (list_of_keys, index_options) =>
      match create_index (store s) resource name list_of_keys index_options with
      | (st, Returned) => (mkState st (log s), Returned)
      | (st, Raised (KeyError _)) =>
          (mkState st (log s ++ [LogWarning resource]), Returned)
      | (st, Raised (DuplicateKeyError msg)) =>
          let s1 := mkState st (log s ++ [LogException (DuplicateKeyError msg)]) in
          if negb ignore_duplicate_keys
          then (s1, Raised (DuplicateKeyError msg))
          else (s1, Returned)
      | (st, Raised e) => (mkState st (log s), Raised e)
      end
  end.

(** [for name, value in mongo_indexes.items(): ...] *)
Fixpoint init_resource_indexes (ignore_duplicate_keys : bool) (resource : string)
    (mongo_indexes : list (string * index_value)) (s : state) : state * outcome :=
  match mongo_indexes with
  | [] => (s, Returned)
  | (name, value) :: rest =>
      match init_index ignore_duplicate_keys resource name value s with
      | (s1, Returned) => init_resource_indexes ignore_duplicate_keys resource rest s1
      | (s1, Raised e) => (s1, Raised e)
      end
  end.

(** [for resource, resource_config in self.config["DOMAIN"].items(): ...];
    the domain set is given by its items in iteration order. *)
Fixpoint init_indexes (ignore_duplicate_keys : bool)
    (domain : list (string * resource_config)) (s : state) : state * outcome :=
  match domain with
  | [] => (s, Returned)
  | (resource, config) :: rest =>
      match mongo_indexes__init config with
      | None | Some [] => init_indexes ignore_duplicate_keys rest s
      | Some mongo_indexes =>
          match init_resource_indexes ignore_duplicate_keys resource mongo_indexes s with
          | (s1, Returned) => init_indexes ignore_duplicate_keys rest s1
          | (s1, Raised e) => (s1, Raised e)
          end
      end
  end.

(** What is left to do once an index of [resource] has been dealt with:
    the indexes after it, then the resources after [resource]. *)
Definition remaining (ignore_duplicate_keys : bool) (resource : string)
    (indexes_after : list (string * index_value))
    (domain_after : list (string * resource_config)) (s : state) : state * outcome :=
  match init_resource_indexes ignore_duplicate_keys resource indexes_after s with
  | (s1, Returned) => init_indexes ignore_duplicate_keys domain_after s1
  | (s1, Raised e) => (s1, Raised e)
  end.

(** The run over [domain_before] and then over [indexes_before] of the next
    resource goes through and reaches state [s1]. *)
Definition reaches (ignore_duplicate_keys : bool)
    (domain_before : list (string * resource_config)) (resource : string)
    (indexes_before : list (string * index_value)) (s0 s1 : state) : Prop :=
  ∃ s, init_indexes ignore_duplicate_keys domain_before s0 = (s, Returned) ∧
       init_resource_indexes ignore_duplicate_keys resource indexes_before s
       = (s1, Returned).

(** No call of [create_index] fails otherwise than with one of [errors]. *)
Definition fails_only_with (errors : exn -> Prop) : Prop :=
  ∀ st resource name list_of_keys index_options e,
    (create_index st resource name list_of_keys index_options).2 = Raised e →
    errors e.

Definition is_KeyError (e : exn) : Prop := ∃ k, e = KeyError k.
Definition is_DuplicateKeyError (e : exn) : Prop := ∃ msg, e = DuplicateKeyError msg.

(** Every index value is a key list or a pair. *)
Definition well_shaped (domain : list (string * resource_config)) : Prop :=
  ∀ resource config mongo_indexes name value,
    (resource, config) ∈ domain →
    mongo_indexes__init config = Some mongo_indexes →
    (name, value) ∈ mongo_indexes →
    ∀ n, value ≠ IndexTuple n.

Lemma init_resource_indexes_app (ignore : bool) (resource : string)
    (l1 l2 : list (string * index_value)) (s : state) :
  init_resource_indexes ignore resource (l1 ++ l2) s =
  match init_resource_indexes ignore resource l1 s with
  | (s1, Returned) => init_resource_indexes ignore resource l2 s1
  | (s1, Raised e) => (s1, Raised e)
  end.
Proof.
  revert s. induction l1 as [| [name value] l1 IH]; intros s; simpl; [done |].
  destruct (init_index ignore resource name value s) as [s1 [| e]]; [apply IH | done].
Qed.

Lemma init_indexes_app (ignore : bool) (d1 d2 : list (string * resource_config))
    (s : state) :
  init_indexes ignore (d1 ++ d2) s =
  match init_indexes ignore d1 s with
  | (s1, Returned) => init_indexes ignore d2 s1
  | (s1, Raised e) => (s1, Raised e)
  end.
Proof.
  revert s. induction d1 as [| [resource config] d1 IH]; intros s; simpl; [done |].
  destruct (mongo_indexes__init config) as [[| i l] |]; [apply IH | | apply IH].
  destruct (init_resource_indexes ignore resource (i :: l) s) as [s1 [| e]];
    [apply IH | done].
Qed.

(** A resource that declares indexes is not skipped. *)
Lemma init_indexes_declared (ignore : bool) (resource : string)
    (l1 l2 : list (string * index_value)) (i : string * index_value)
    (rest : list (string * resource_config)) (s : state) :
  init_indexes ignore
    ((resource, {| mongo_indexes__init := Some (l1 ++ i :: l2) |}) :: rest) s =
  match init_resource_indexes ignore resource (l1 ++ i :: l2) s with
  | (s1, Returned) => init_indexes ignore rest s1
  | (s1, Raised e) => (s1, Raised e)
  end.
Proof.
  cbn [init_indexes mongo_indexes__init].
  destruct (l1 ++ i :: l2) eqn:Hl; [| done].
  by destruct l1.
Qed.

(** The run up to an index, the index itself, and what remains. *)
Lemma init_indexes_at (ignore : bool)
    (domain_before domain_after : list (string * resource_config))
    (resource name : string) (value : index_value)
    (indexes_before indexes_after : list (string * index_value)) (s0 s1 : state) :
  reaches ignore domain_before resource indexes_before s0 s1 →
  init_indexes ignore
    (domain_before ++
     (resource, {| mongo_indexes__init :=
                     Some (indexes_before ++ (name, value) :: indexes_after) |})
     :: domain_after) s0 =
  match init_index ignore resource name value s1 with
  | (s2, Returned) => remaining ignore resource indexes_after domain_after s2
  | (s2, Raised e) => (s2, Raised e)
  end.
Proof.
  intros (s & Hbefore & Hindexes).
  rewrite init_indexes_app, Hbefore, init_indexes_declared.
  rewrite init_resource_indexes_app, Hindexes. cbn [init_resource_indexes].
  unfold remaining.
  by destruct (init_index ignore resource name value s1) as [s2 [| e]].
Qed.

(** C4.  Take any declared index and suppose the run reaches it and the
    store fails to create it.  If the failure is a [KeyError] (the store
    does not know the resource), a warning is logged and the run goes on
    with the remaining indexes: nothing is raised for it.  If the failure
    is a [DuplicateKeyError], the error is logged, and then the run raises
    it when [ignore_duplicate_keys] is false, and goes on with the remaining
    indexes when it is true. *)
Theorem index_errors (ignore_duplicate_keys : bool)
    (domain_before domain_after : list (string * resource_config))
    (resource name : string) (value : index_value)
    (indexes_before indexes_after : list (string * index_value))
    (s0 s1 : state) (list_of_keys : list (string * Z))
    (index_options : gmap string pyval) (st : Store) (e : exn) :
  reaches ignore_duplicate_keys domain_before resource indexes_before s0 s1 →
  index_arguments value = Ok (list_of_keys, index_options) →
  create_index (store s1) resource name list_of_keys index_options = (st, Raised e) →
  let domain :=
    domain_before ++
    (resource, {| mongo_indexes__init :=
                    Some (indexes_before ++ (name, value) :: indexes_after) |})
    :: domain_after in
  (is_KeyError e →
   init_indexes ignore_duplicate_keys domain s0 =
   remaining ignore_duplicate_keys resource indexes_after domain_after
     (mkState st (log s1 ++ [LogWarning resource]))) ∧
  (is_DuplicateKeyError e →
   init_indexes ignore_duplicate_keys domain s0 =
   if ignore_duplicate_keys
   then remaining ignore_duplicate_keys resource indexes_after domain_after
          (mkState st (log s1 ++ [LogException e]))
   else (mkState st (log s1 ++ [LogException e]), Raised e)).
Proof.
  intros Hreach Hargs Hcreate domain. subst domain.
  rewrite (init_indexes_at _ _ _ _ _ _ _ _ _ _ Hreach).
  unfold init_index. rewrite Hargs, Hcreate.
  split.
  - by intros [k ->].
  - intros [msg ->]. by destruct ignore_duplicate_keys.
Qed.

(** [init_indexes()] without argument: [ignore_duplicate_keys=False]. *)
Definition init_indexes_default (domain : list (string * resource_config))
    (s : state) : state * outcome :=
  init_indexes false domain s.

(** One index never makes the run raise when the store fails only in the
    tolerated ways. *)
Lemma init_index_returns (ignore : bool) (resource name : string)
    (value : index_value) (s : state) :
  fails_only_with (λ e, is_KeyError e ∨ (ignore = true ∧ is_DuplicateKeyError e)) →
  (∀ n, value ≠ IndexTuple n) →
  (init_index ignore resource name value s).2 = Returned.
Proof.
  intros Hfail Hshape. unfold init_index.
  destruct value as [keys | keys options | n]; [| | by destruct (Hshape n)];
    simpl;
    match goal with
    | |- context [create_index ?st ?r ?n ?k ?o] =>
        pose proof (Hfail st r n k o) as Hf;
        destruct (create_index st r n k o) as [st' [| e]]; [done |];
        destruct (Hf e eq_refl) as [[k' ->] | [-> [msg ->]]]; done
    end.
Qed.

(** X5.  With duplicates tolerated the whole run returns when the store fails
    only with [KeyError] or [DuplicateKeyError]; without, when it fails only
    with [KeyError]. *)
Lemma init_indexes_returns (ignore : bool) (domain : list (string * resource_config))
    (s : state) :
  fails_only_with (λ e, is_KeyError e ∨ (ignore = true ∧ is_DuplicateKeyError e)) →
  well_shaped domain →
  (init_indexes ignore domain s).2 = Returned.
Proof.
  intros Hfail. revert s.
  assert (Hres : ∀ resource l s,
            (∀ name value, (name, value) ∈ l → ∀ n, value ≠ IndexTuple n) →
            (init_resource_indexes ignore resource l s).2 = Returned).
  { intros resource l. induction l as [| [name value] l IH]; intros s Hl; [done |].
    simpl.
    pose proof (init_index_returns ignore resource name value s Hfail) as Hone.
    destruct (init_index ignore resource name value s) as [s1 [| e]].
    - apply IH. intros n v Hin. apply (Hl n v). by right.
    - simpl in Hone. discriminate Hone. intros n. apply (Hl name value). by left. }
  induction domain as [| [resource config] domain IH]; intros s Hshape; [done |].
  assert (Hrest : well_shaped domain).
  { intros r c l n v Hin. apply (Hshape r c l n v). by right. }
  simpl. destruct (mongo_indexes__init config) as [[| i l] |] eqn:Hcfg;
    [by apply IH | | by apply IH].
  pose proof (Hres resource (i :: l) s) as Hone.
  destruct (init_resource_indexes ignore resource (i :: l) s) as [s1 [| e]];
    [by apply IH |].
  simpl in Hone. discriminate Hone.
  intros name value Hin.
  apply (Hshape resource config (i :: l) name value); [by left | exact Hcfg | exact Hin].
Qed.

(** X6.  An error of the store that is neither a [KeyError] nor a
    [DuplicateKeyError] is not caught: the run raises it at the index where
    it occurs, nothing is logged for it, and the remaining indexes are not
    attempted. *)
Theorem index_other_errors (ignore_duplicate_keys : bool)
    (domain_before domain_after : list (string * resource_config))
    (resource name : string) (value : index_value)
    (indexes_before indexes_after : list (string * index_value))
    (s0 s1 : state) (list_of_keys : list (string * Z))
    (index_options : gmap string pyval) (st : Store) (e : exn) :
  reaches ignore_duplicate_keys domain_before resource indexes_before s0 s1 →
  index_arguments value = Ok (list_of_keys, index_options) →
  create_index (store s1) resource name list_of_keys index_options = (st, Raised e) →
  ¬ is_KeyError e → ¬ is_DuplicateKeyError e →
  init_indexes ignore_duplicate_keys
    (domain_before ++
     (resource, {| mongo_indexes__init :=
                     Some (indexes_before ++ (name, value) :: indexes_after) |})
     :: domain_after) s0
  = (mkState st (log s1), Raised e).
Proof.
  intros Hreach Hargs Hcreate Hkey Hdup.
  rewrite (init_indexes_at _ _ _ _ _ _ _ _ _ _ Hreach).
  unfold init_index. rewrite Hargs, Hcreate.
  destruct e; try done.
  - destruct Hkey. by eexists.
  - destruct Hdup. by eexists.
Qed.

(** A domain set in which no resource declares an index (the entry is
    missing or empty) is gone through without a call to the store: state
    and log are as before, and the run returns. *)
Theorem init_indexes_nothing_declared (ignore : bool)
    (domain : list (string * resource_config)) (s : state) :
  (∀ resource config, (resource, config) ∈ domain →
     mongo_indexes__init config = None ∨ mongo_indexes__init config = Some []) →
  init_indexes ignore domain s = (s, Returned).
Proof.
  induction domain as [| [resource config] domain IH]; intros Hnone; [done |].
  simpl. destruct (Hnone resource config) as [-> | ->]; [by left | |];
    apply IH; intros r c Hin; apply (Hnone r c); by right.
Qed.

(** X7.  The options handed to the store always hold [background]: [True]
    when the index declares no options or options without [background], and
    the declared value when it declares one; every other declared option
    is handed over as it is. *)
Theorem index_arguments_background (list_of_keys : list (string * Z))
    (index_options : gmap string pyval) :
  index_arguments (IndexKeys list_of_keys)
    = Ok (list_of_keys, {[ "background" := PyBool true ]}) ∧
  ∃ options,
    index_arguments (IndexPair list_of_keys index_options) = Ok (list_of_keys, options) ∧
    options !! "background"
      = Some (default (PyBool true) (index_options !! "background")) ∧
    ∀ k, k ≠ "background" → options !! k = index_options !! k.
Proof.
  split; [reflexivity |].
  eexists. split; [reflexivity |]. unfold setdefault.
  destruct (index_options !! "background") as [v |] eqn:Hb; simpl.
  - by split.
  - split; [apply lookup_insert_eq |]. intros k Hk. by apply lookup_insert_ne.
Qed.

(** What [init_indexes] may log for [resource]: the warning about it, or a
    [DuplicateKeyError]. *)
Definition logged_for (resources : list string) (entry : log_entry) : Prop :=
  (∃ resource, entry = LogWarning resource ∧ resource ∈ resources) ∨
  (∃ msg, entry = LogException (DuplicateKeyError msg)).

Lemma init_index_log (ignore : bool) (resource name : string) (value : index_value)
    (s : state) :
  ∃ t, log (init_index ignore resource name value s).1 = log s ++ t ∧
       Forall (logged_for [resource]) t.
Proof.
  unfold init_index. destruct (index_arguments value) as [[keys options] | e];
    [| exists []; by rewrite app_nil_r].
  destruct (create_index (store s) resource name keys options) as [st [| e]];
    [exists []; by rewrite app_nil_r |].
  destruct e; try (exists []; by rewrite app_nil_r).
  - exists [LogWarning resource]. split; [done |]. constructor; [| done].
    left. exists resource. split; [done | apply list_elem_of_here].
  - exists [LogException (DuplicateKeyError msg)].
    split; [by destruct ignore |]. constructor; [| done]. right. by eexists.
Qed.

Lemma logged_for_weaken (l1 l2 : list string) (t : list log_entry) :
  (∀ r, r ∈ l1 → r ∈ l2) → Forall (logged_for l1) t → Forall (logged_for l2) t.
Proof.
  intros Hsub Hall. eapply Forall_impl; [exact Hall |].
  intros entry [(r & -> & Hr) | Hdup].
  - left. exists r. split; [done | by apply Hsub].
  - by right.
Qed.

Lemma init_resource_indexes_log (ignore : bool) (resource : string)
    (mongo_indexes : list (string * index_value)) (s : state) :
  ∃ t, log (init_resource_indexes ignore resource mongo_indexes s).1 = log s ++ t ∧
       Forall (logged_for [resource]) t.
Proof.
  revert s. induction mongo_indexes as [| [name value] rest IH]; intros s; simpl.
  - exists []. by rewrite app_nil_r.
  - destruct (init_index_log ignore resource name value s) as (t1 & Ht1 & Hall1).
    destruct (init_index ignore resource name value s) as [s1 [| e]]; simpl in Ht1.
    + destruct (IH s1) as (t2 & Ht2 & Hall2). exists (t1 ++ t2).
      rewrite Ht2, Ht1, app_assoc. split; [done | by apply Forall_app].
    + by exists t1.
Qed.

(** X8.  The run never drops what the log holds, and what it adds is, for
    each entry, either the warning about a resource of the domain set or a
    [DuplicateKeyError] of the store. *)
Theorem init_indexes_log (ignore : bool) (domain : list (string * resource_config))
    (s : state) :
  ∃ t, log (init_indexes ignore domain s).1 = log s ++ t ∧
       Forall (logged_for domain.*1) t.
Proof.
  revert s. induction domain as [| [resource config] domain IH]; intros s.
  - exists []. simpl. by rewrite app_nil_r.
  - assert (Hskip : ∃ t, log (init_indexes ignore domain s).1 = log s ++ t ∧
                         Forall (logged_for ((resource, config) :: domain).*1) t).
    { destruct (IH s) as (t & Ht & Hall). exists t. split; [done |].
      eapply logged_for_weaken; [| exact Hall]. intros r Hr. by right. }
    simpl. destruct (mongo_indexes__init config) as [[| i l] |]; [done | | done].
    destruct (init_resource_indexes_log ignore resource (i :: l) s) as (t1 & Ht1 & Hall1).
    destruct (init_resource_indexes ignore resource (i :: l) s) as [s1 [| e]];
      simpl in Ht1.
    + destruct (IH s1) as (t2 & Ht2 & Hall2). exists (t1 ++ t2).
      rewrite Ht2, Ht1, app_assoc. split; [done |]. apply Forall_app. split.
      * eapply logged_for_weaken; [| exact Hall1]. intros r Hr.
        apply list_elem_of_singleton in Hr as ->. by left.
      * eapply logged_for_weaken; [| exact Hall2]. intros r Hr. by right.
    + exists t1. split; [done |].
      eapply logged_for_weaken; [| exact Hall1]. intros r Hr.
      apply list_elem_of_singleton in Hr as ->. by left.
Qed.

End Init.

Arguments mkState {Store} _ _.
Arguments store {Store} _.
Arguments log {Store} _.

(** A store that knows the resource [users] only and in which the unique
    index on [users.email] meets duplicates; it counts the indexes built. *)
Definition demo_create_index (built : nat) (resource name : string)
    (list_of_keys : list (string * Z)) (index_options : gmap string pyval)
  : nat * outcome :=
  if negb (String.eqb resource "users") then (built, Raised (KeyError resource))
  else if String.eqb name "email_1" then (built, Raised (DuplicateKeyError "E11000"))
  else (S built, Returned).

Definition demo_domain : list (string * resource_config) :=
  [("ghost", {| mongo_indexes__init := Some [("name_1", IndexKeys [("name", 1%Z)])] |});
   ("users", {| mongo_indexes__init :=
                  Some [("email_1", IndexPair [("email", 1%Z)] {[ "unique" := PyBool true ]});
                        ("username_1", IndexKeys [("username", 1%Z)])] |})].

Lemma index_errors_witness :
  init_indexes nat demo_create_index true demo_domain (mkState 0 []) =
    (mkState 1 [LogWarning "ghost"; LogException (DuplicateKeyError "E11000")],
     Returned) ∧
  init_indexes nat demo_create_index false demo_domain (mkState 0 []) =
    (mkState 0 [LogWarning "ghost"; LogException (DuplicateKeyError "E11000")],
     Raised (DuplicateKeyError "E11000")).
Proof.
  assert (Hreach : ∀ ignore,
            reaches nat demo_create_index ignore
              [("ghost", {| mongo_indexes__init :=
                              Some [("name_1", IndexKeys [("name", 1%Z)])] |})]
              "users" [] (mkState 0 []) (mkState 0 [LogWarning "ghost"])).
  { intros ignore. exists (mkState 0 [LogWarning "ghost"]). split; reflexivity. }
  split.
  - refine (eq_trans
      (proj2 (index_errors nat demo_create_index true _ [] "users" "email_1"
                (IndexPair [("email", 1%Z)] {[ "unique" := PyBool true ]})
                [] [("username_1", IndexKeys [("username", 1%Z)])]
                (mkState 0 []) (mkState 0 [LogWarning "ghost"])
                _ _ 0 (DuplicateKeyError "E11000") (Hreach true) eq_refl eq_refl)
             (ex_intro _ "E11000" eq_refl)) _).
    reflexivity.
  - refine (eq_trans
      (proj2 (index_errors nat demo_create_index false _ [] "users" "email_1"
                (IndexPair [("email", 1%Z)] {[ "unique" := PyBool true ]})
                [] [("username_1", IndexKeys [("username", 1%Z)])]
                (mkState 0 []) (mkState 0 [LogWarning "ghost"])
                _ _ 0 (DuplicateKeyError "E11000") (Hreach false) eq_refl eq_refl)
             (ex_intro _ "E11000" eq_refl)) _).
    reflexivity.
Defined.

Lemma demo_create_index_fails :
  fails_only_with nat demo_create_index
    (λ e, is_KeyError e ∨ (true = true ∧ is_DuplicateKeyError e)).
Proof.
  intros st resource name keys options e. unfold demo_create_index.
  destruct (negb (String.eqb resource "users")).
  - intros [= <-]. left. by eexists.
  - destruct (String.eqb name "email_1"); [| done].
    intros [= <-]. right. split; [done | by eexists].
Qed.

Lemma demo_domain_well_shaped : well_shaped demo_domain.
Proof.
  intros resource config l name value Hin Hcfg Hv n ->.
  unfold demo_domain in Hin.
  repeat (apply elem_of_cons in Hin as [[= -> ->] | Hin];
          [simpl in Hcfg; injection Hcfg as <-;
           repeat (apply elem_of_cons in Hv as [[=] | Hv]);
           by apply elem_of_nil in Hv |]).
  by apply elem_of_nil in Hin.
Qed.

Lemma init_indexes_returns_witness :
  (init_indexes nat demo_create_index true demo_domain (mkState 0 [])).2 = Returned.
Proof.
  exact (init_indexes_returns nat demo_create_index true demo_domain (mkState 0 [])
           demo_create_index_fails demo_domain_well_shaped).
Defined.

(** A store that is out of reach for the second index. *)
Definition unreachable_store (built : nat) (resource name : string)
    (list_of_keys : list (string * Z)) (index_options : gmap string pyval)
  : nat * outcome :=
  if String.eqb name "username_1" then (built, Raised (OtherError "timed out"))
  else (S built, Returned).

Lemma index_other_errors_witness :
  init_indexes nat unreachable_store true
    ([] ++ ("users", {| mongo_indexes__init :=
               Some ([("email_1", IndexKeys [("email", 1%Z)])] ++
                     ("username_1", IndexKeys [("username", 1%Z)]) ::
                     [("phone_1", IndexKeys [("phone", 1%Z)])]) |}) :: [])
    (mkState 0 [])
  = (mkState 1 [], Raised (OtherError "timed out")).
Proof.
  refine (index_other_errors nat unreachable_store true [] [] "users" "username_1"
            (IndexKeys [("username", 1%Z)])
            [("email_1", IndexKeys [("email", 1%Z)])]
            [("phone_1", IndexKeys [("phone", 1%Z)])]
            (mkState 0 []) (mkState 1 []) _ _ 1 (OtherError "timed out")
            _ eq_refl eq_refl _ _).
  - exists (mkState 0 []). split; reflexivity.
  - intros [k Hk]. discriminate Hk.
  - intros [msg Hmsg]. discriminate Hmsg.
Defined.

Lemma init_indexes_nothing_declared_witness :
  init_indexes nat demo_create_index false
    [("users", {| mongo_indexes__init := None |});
     ("desks", {| mongo_indexes__init := Some [] |})] (mkState 0 [])
  = (mkState 0 [], Returned).
Proof.
  apply (init_indexes_nothing_declared nat demo_create_index false).
  intros resource config Hin.
  apply elem_of_cons in Hin as [[= -> ->] | Hin]; [by left |].
  apply elem_of_cons in Hin as [[= -> ->] | Hin]; [by right |].
  by apply elem_of_nil in Hin.
Defined.

End Indexes.

(** ** Resource registry: item scopes ([SuperdeskEve.item_scope]) *)

Module ItemScope.

(** [resource["datasource"]]: the [projection] entry, when it has one. *)
Record datasource : Type := {
  projection : option (gmap string Z)
}.

(** An entry of [config["DOMAIN"]], as far as [item_scope] touches it; a
    field is [None] when the dictionary has no such key. *)
Record resource : Type := {
  res_schema : option (gmap string pyval);
  res_datasource : option datasource
}.

(** An entry of [config["item_scope"]]: [{"schema": schema}], where the
    schema may be [None]. *)
Record scope : Type := {
  scope_schema : option (gmap string pyval)
}.

(** The part of [self.config] that [item_scope] reads and writes. *)
Record config : Type := mkConfig {
  cfg_item_scope : option (gmap string scope);
  DOMAIN : gmap string resource;
  VERSIONS : string
}.

(** The inner function [update_resource_schema] for the schema fragment
    [schema]: the assertion, the schema update, then the loop that writes
    the projection (entered at least once, as [schema] is not empty). *)
Definition update_resource_schema (schema : gmap string pyval) (name : string)
    (cfg : config) : config * outcome :=
  if decide (size schema = 0) then (cfg, Raised (AssertionError ""))
  else
    match DOMAIN cfg !! name with
    | None => (cfg, Raised (KeyError name))
    | Some r =>
        match res_schema r with
        | None => (cfg, Raised (KeyError "schema"))
        | Some old_schema =>
            let r1 := {| res_schema := Some (schema ∪ old_schema);
                         res_datasource := res_datasource r |} in
            let cfg1 := mkConfig (cfg_item_scope cfg) (<[name := r1]> (DOMAIN cfg))
                          (VERSIONS cfg) in
            match res_datasource r with
            | None => (cfg1, Raised (KeyError "datasource"))
            | Some ds =>
                match projection ds with
                | None => (cfg1, Raised (KeyError "projection"))
                | Some old_projection =>
                    let r2 :=
                      {| res_schema := Some (schema ∪ old_schema);
                         res_datasource :=
                           Some {| projection :=
                                     Some (((λ _, 1%Z) <$> schema) ∪ old_projection) |} |} in
                    (mkConfig (cfg_item_scope cfg) (<[name := r2]> (DOMAIN cfg))
                       (VERSIONS cfg), Returned)
                end
            end
        end
    end.

Definition target_resources : list string :=
  ["archive"; "archive_autosave"; "published"; "archived"].

(** The loop of lines 141-145 over [resources]. *)
Fixpoint update_resources (schema : gmap string pyval) (resources : list string)
    (cfg : config) : config * outcome :=
  match resources with
  | [] => (cfg, Returned)
  | name :: rest =>
      match update_resource_schema schema name cfg with
      | (cfg1, Raised e) => (cfg1, Raised e)
      | (cfg1, Returned) =>
          let versioned_resource := name +:+ VERSIONS cfg1 in
          match DOMAIN cfg1 !! versioned_resource with
          | None => update_resources schema rest cfg1
          | Some _ =>
              match update_resource_schema schema versioned_resource cfg1 with
              | (cfg2, Raised e) => (cfg2, Raised e)
              | (cfg2, Returned) => update_resources schema rest cfg2
              end
          end
      end
  end.

Definition item_scope (name : string) (schema : option (gmap string pyval))
    (cfg : config) : config * outcome :=
  let scopes := default ∅ (cfg_item_scope cfg) in
  let cfg0 := mkConfig (Some (<[name := {| scope_schema := schema |}]> scopes))
                (DOMAIN cfg) (VERSIONS cfg) in
  match schema with
  | Some fragment => update_resources fragment target_resources cfg0
  | None => (cfg0, Returned)
  end.

(** Resource [name] has field [x] with rule [rule] in its schema and with
    marker 1 in its projection. *)
Definition has_field (cfg : config) (name x : string) (rule : pyval) : Prop :=
  ∃ r sch ds proj,
    DOMAIN cfg !! name = Some r ∧
    res_schema r = Some sch ∧ sch !! x = Some rule ∧
    res_datasource r = Some ds ∧ projection ds = Some proj ∧
    proj !! x = Some 1%Z.

(** Resource [name] is in the domain set with a schema and a projection. *)
Definition configured (cfg : config) (name : string) : Prop :=
  ∃ r sch ds proj,
    DOMAIN cfg !! name = Some r ∧
    res_schema r = Some sch ∧
    res_datasource r = Some ds ∧ projection ds = Some proj.

(** *** The scope entry survives whatever happens to the resources *)

Lemma update_resource_schema_scope (schema : gmap string pyval) (name : string)
    (cfg : config) :
  cfg_item_scope (update_resource_schema schema name cfg).1 = cfg_item_scope cfg.
Proof.
  unfold update_resource_schema. case_decide; [done |].
  destruct (DOMAIN cfg !! name) as [r |]; [| done].
  destruct (res_schema r); [| done].
  destruct (res_datasource r) as [ds |]; [| done].
  by destruct (projection ds).
Qed.

Lemma update_resources_scope (schema : gmap string pyval) (resources : list string)
    (cfg : config) :
  cfg_item_scope (update_resources schema resources cfg).1 = cfg_item_scope cfg.
Proof.
  revert cfg. induction resources as [| name rest IH]; intros cfg; [done |].
  simpl.
  pose proof (update_resource_schema_scope schema name cfg) as H1.
  destruct (update_resource_schema schema name cfg) as [cfg1 [| e]]; [| done].
  simpl in H1.
  destruct (DOMAIN cfg1 !! (name +:+ VERSIONS cfg1)).
  - pose proof (update_resource_schema_scope schema (name +:+ VERSIONS cfg1) cfg1) as H2.
    destruct (update_resource_schema schema (name +:+ VERSIONS cfg1) cfg1)
      as [cfg2 [| e]]; simpl in H2; [| simpl; congruence].
    rewrite IH. congruence.
  - rewrite IH. congruence.
Qed.

(** *** One resource *)

Section Fragment.

Variable schema : gmap string pyval.
Variable x : string.
Variable rule : pyval.
Hypothesis schema_x : schema !! x = Some rule.

Lemma schema_not_empty : size schema ≠ 0.
Proof using schema_x.
  intros Hsize. apply map_size_empty_inv in Hsize.
  rewrite Hsize, lookup_empty in schema_x. discriminate.
Qed.

Lemma update_resource_schema_ok (name : string) (cfg : config) :
  configured cfg name →
  ∃ cfg1,
    update_resource_schema schema name cfg = (cfg1, Returned) ∧
    VERSIONS cfg1 = VERSIONS cfg ∧
    has_field cfg1 name x rule ∧
    (∀ k, configured cfg k → configured cfg1 k) ∧
    (∀ k, has_field cfg k x rule → has_field cfg1 k x rule) ∧
    (∀ k, is_Some (DOMAIN cfg1 !! k) ↔ is_Some (DOMAIN cfg !! k)).
Proof using schema_x.
  intros (r & sch & ds & proj & Hr & Hsch & Hds & Hproj).
  unfold update_resource_schema.
  rewrite decide_False by apply schema_not_empty.
  rewrite Hr, Hsch, Hds, Hproj.
  eexists. split; [reflexivity |]. cbn [VERSIONS DOMAIN].
  assert (Hnew : ∀ cfg_scope versions,
            has_field
              (mkConfig cfg_scope
                 (<[name := {| res_schema := Some (schema ∪ sch);
                               res_datasource :=
                                 Some {| projection :=
                                           Some (((λ _, 1%Z) <$> schema) ∪ proj) |} |}]>
                    (DOMAIN cfg)) versions) name x rule).
  { intros cfg_scope versions. do 4 eexists. cbn [DOMAIN].
    rewrite lookup_insert_eq. repeat split.
    - by apply lookup_union_Some_l.
    - apply lookup_union_Some_l. by rewrite lookup_fmap, schema_x. }
  split; [done |]. split; [apply Hnew |]. split; [| split].
  - intros k Hk. destruct (decide (k = name)) as [-> | Hne].
    + destruct (Hnew (cfg_item_scope cfg) (VERSIONS cfg))
        as (r' & sch' & ds' & proj' & H1 & H2 & _ & H3 & H4 & _).
      by exists r', sch', ds', proj'.
    + destruct Hk as (r' & sch' & ds' & proj' & H1 & H2 & H3 & H4).
      exists r', sch', ds', proj'. cbn [DOMAIN].
      by rewrite lookup_insert_ne.
  - intros k Hk. destruct (decide (k = name)) as [-> | Hne]; [apply Hnew |].
    destruct Hk as (r' & sch' & ds' & proj' & H1 & H2 & H3 & H4 & H5 & H6).
    exists r', sch', ds', proj'. cbn [DOMAIN].
    by rewrite lookup_insert_ne.
  - intros k. destruct (decide (k = name)) as [-> | Hne].
    + rewrite lookup_insert_eq, Hr. split; eauto.
    + by rewrite lookup_insert_ne.
Qed.

(** *** The loop over the resources *)

Lemma update_resources_ok (resources : list string) :
  ∀ cfg,
    (∀ t, t ∈ resources →
       configured cfg t ∧
       (is_Some (DOMAIN cfg !! (t +:+ VERSIONS cfg)) →
        configured cfg (t +:+ VERSIONS cfg))) →
    ∃ cfg',
      update_resources schema resources cfg = (cfg', Returned) ∧
      VERSIONS cfg' = VERSIONS cfg ∧
      (∀ k, configured cfg k → configured cfg' k) ∧
      (∀ k, has_field cfg k x rule → has_field cfg' k x rule) ∧
      (∀ k, is_Some (DOMAIN cfg' !! k) ↔ is_Some (DOMAIN cfg !! k)) ∧
      (∀ t, t ∈ resources →
         has_field cfg' t x rule ∧
         (is_Some (DOMAIN cfg !! (t +:+ VERSIONS cfg)) →
          has_field cfg' (t +:+ VERSIONS cfg) x rule)).
Proof using schema_x.
  induction resources as [| name rest IH]; intros cfg Hpre.
  - exists cfg. repeat split; try done; set_solver.
  - destruct (Hpre name) as [Hname Hversioned]; [by left |].
    destruct (update_resource_schema_ok name cfg Hname)
      as (cfg1 & Hrun1 & Hv1 & Hfield1 & Hconf1 & Hkeep1 & Hdom1).
    cbn [update_resources]. rewrite Hrun1, Hv1.
    destruct (DOMAIN cfg1 !! (name +:+ VERSIONS cfg)) as [rv |] eqn:Hlook.
    + assert (Hin : is_Some (DOMAIN cfg !! (name +:+ VERSIONS cfg)))
        by (apply Hdom1; rewrite Hlook; eauto).
      destruct (update_resource_schema_ok (name +:+ VERSIONS cfg) cfg1
                  (Hconf1 _ (Hversioned Hin)))
        as (cfg2 & Hrun2 & Hv2 & Hfield2 & Hconf2 & Hkeep2 & Hdom2).
      rewrite Hrun2.
      destruct (IH cfg2) as (cfg' & Hrun & Hv & Hconf & Hkeep & Hdom & Hall).
      { intros t Ht. destruct (Hpre t) as [Ht1 Ht2]; [by right |].
        split; [by apply Hconf2, Hconf1 |].
        rewrite Hv2, Hv1. intros Hs. apply Hconf2, Hconf1, Ht2.
        by apply Hdom1, Hdom2. }
      exists cfg'. split; [done |]. split; [congruence |].
      split; [by intros k Hk; apply Hconf, Hconf2, Hconf1 |].
      split; [by intros k Hk; apply Hkeep, Hkeep2, Hkeep1 |].
      split; [intros k; by rewrite Hdom, Hdom2, Hdom1 |].
      intros t Ht. apply elem_of_cons in Ht as [-> | Ht].
      * split; [by apply Hkeep, Hkeep2 |]. intros _. by apply Hkeep.
      * destruct (Hall t Ht) as [Ha Hb]. split; [done |].
        rewrite Hv2, Hv1 in Hb. intros Hs. apply Hb. by apply Hdom2, Hdom1.
    + destruct (IH cfg1) as (cfg' & Hrun & Hv & Hconf & Hkeep & Hdom & Hall).
      { intros t Ht. destruct (Hpre t) as [Ht1 Ht2]; [by right |].
        split; [by apply Hconf1 |].
        rewrite Hv1. intros Hs. apply Hconf1, Ht2. by apply Hdom1. }
      exists cfg'. split; [done |]. split; [congruence |].
      split; [by intros k Hk; apply Hconf, Hconf1 |].
      split; [by intros k Hk; apply Hkeep, Hkeep1 |].
      split; [intros k; by rewrite Hdom, Hdom1 |].
      intros t Ht. apply elem_of_cons in Ht as [-> | Ht].
      * split; [by apply Hkeep |]. intros Hs. apply Hdom1 in Hs.
        rewrite Hlook in Hs. by destruct Hs.
      * destruct (Hall t Ht) as [Ha Hb]. split; [done |].
        rewrite Hv1 in Hb. intros Hs. apply Hb. by apply Hdom1.
Qed.

End Fragment.

(** C5.  Declaring an item scope with a schema that holds field [x] (so the
    schema is not empty), in a domain set where the four target resources
    are configured with a schema and a projection, as is every versioned
    counterpart that is present: the call returns, and afterwards [x] is in
    the schema (with its rule) and in the projection (with marker 1) of
    each target resource and of each versioned counterpart that was in the
    domain set. *)
Theorem item_scope_propagates (name : string) (schema : gmap string pyval)
    (x : string) (rule : pyval) (cfg : config) :
  schema !! x = Some rule →
  (∀ t, t ∈ target_resources → configured cfg t) →
  (∀ t, t ∈ target_resources →
     is_Some (DOMAIN cfg !! (t +:+ VERSIONS cfg)) →
     configured cfg (t +:+ VERSIONS cfg)) →
  ∃ cfg',
    item_scope name (Some schema) cfg = (cfg', Returned) ∧
    ∀ t, t ∈ target_resources →
      has_field cfg' t x rule ∧
      (is_Some (DOMAIN cfg !! (t +:+ VERSIONS cfg)) →
       has_field cfg' (t +:+ VERSIONS cfg) x rule).
Proof.
  intros Hx Htargets Hversioned. unfold item_scope.
  set (cfg0 := mkConfig _ (DOMAIN cfg) (VERSIONS cfg)).
  destruct (update_resources_ok schema x rule Hx target_resources cfg0)
    as (cfg' & Hrun & _ & _ & _ & _ & Hall).
  - intros t Ht. split.
    + destruct (Htargets t Ht) as (r & sch & ds & proj & H).
      by exists r, sch, ds, proj.
    + intros Hs. destruct (Hversioned t Ht Hs) as (r & sch & ds & proj & H).
      by exists r, sch, ds, proj.
  - exists cfg'. split; [done |]. intros t Ht. by apply Hall.
Qed.

(** The theorem needs the target resources: when [archive] is not in the
    domain set the first lookup raises [KeyError]. *)
Lemma item_scope_missing_target (name : string) (schema : gmap string pyval)
    (cfg : config) :
  size schema ≠ 0 → DOMAIN cfg !! "archive" = None →
  (item_scope name (Some schema) cfg).2 = Raised (KeyError "archive").
Proof.
  intros Hsize Hnone. unfold item_scope, target_resources.
  cbn [update_resources]. unfold update_resource_schema.
  rewrite decide_False by done. cbn [DOMAIN]. by rewrite Hnone.
Qed.

(** C10.  The scope is recorded before anything is checked: a call with an
    empty schema raises [AssertionError] at the first target resource, and
    the configuration it leaves behind holds the scope entry, the domain
    set being untouched.  Whatever the schema and the outcome, the entry
    is in the [item_scope] map after the call. *)
Theorem item_scope_not_atomic (name : string) (cfg : config) :
  item_scope name (Some ∅) cfg =
    (mkConfig
       (Some (<[name := {| scope_schema := Some ∅ |}]> (default ∅ (cfg_item_scope cfg))))
       (DOMAIN cfg) (VERSIONS cfg),
     Raised (AssertionError "")) ∧
  ∀ schema,
    ∃ scopes,
      cfg_item_scope (item_scope name schema cfg).1 = Some scopes ∧
      scopes !! name = Some {| scope_schema := schema |}.
Proof.
  split; [reflexivity |].
  intros schema. eexists. split; [| apply lookup_insert_eq].
  unfold item_scope. destruct schema as [fragment |]; [| reflexivity].
  by rewrite update_resources_scope.
Qed.

(** *** What [item_scope] leaves alone *)

Lemma update_resource_schema_frame (schema : gmap string pyval) (name : string)
    (cfg : config) :
  VERSIONS (update_resource_schema schema name cfg).1 = VERSIONS cfg ∧
  dom (DOMAIN (update_resource_schema schema name cfg).1) = dom (DOMAIN cfg) ∧
  ∀ k, k ≠ name →
    DOMAIN (update_resource_schema schema name cfg).1 !! k = DOMAIN cfg !! k.
Proof.
  unfold update_resource_schema. case_decide; [done |].
  destruct (DOMAIN cfg !! name) as [r |] eqn:Hr; [| done].
  destruct (res_schema r); [| done].
  assert (Hdom : ∀ r', dom (<[name := r']> (DOMAIN cfg)) = dom (DOMAIN cfg)).
  { intros r'. rewrite dom_insert_L.
    assert (name ∈ dom (DOMAIN cfg)) by (apply elem_of_dom; eauto). set_solver. }
  destruct (res_datasource r) as [ds |]; [destruct (projection ds) |]; simpl;
    (split; [done |]; split; [apply Hdom |]);
    intros k Hk; by apply lookup_insert_ne.
Qed.

Lemma update_resources_frame (schema : gmap string pyval) (resources : list string) :
  ∀ cfg,
    VERSIONS (update_resources schema resources cfg).1 = VERSIONS cfg ∧
    dom (DOMAIN (update_resources schema resources cfg).1) = dom (DOMAIN cfg) ∧
    ∀ k, k ∉ resources → (∀ t, t ∈ resources → k ≠ t +:+ VERSIONS cfg) →
      DOMAIN (update_resources schema resources cfg).1 !! k = DOMAIN cfg !! k.
Proof.
  induction resources as [| name rest IH]; intros cfg; [done |].
  cbn [update_resources].
  destruct (update_resource_schema_frame schema name cfg) as (Hv1 & Hd1 & Hf1).
  destruct (update_resource_schema schema name cfg) as [cfg1 [| e]];
    cbn [fst] in Hv1, Hd1, Hf1.
  - destruct (DOMAIN cfg1 !! (name +:+ VERSIONS cfg1)).
    + destruct (update_resource_schema_frame schema (name +:+ VERSIONS cfg1) cfg1)
        as (Hv2 & Hd2 & Hf2).
      destruct (update_resource_schema schema (name +:+ VERSIONS cfg1) cfg1)
        as [cfg2 [| e]]; cbn [fst] in Hv2, Hd2, Hf2.
      * destruct (IH cfg2) as (Hv & Hd & Hf).
        split; [congruence |]. split; [congruence |].
        intros k Hk Hver. rewrite Hf, Hf2, Hf1.
        -- done.
        -- intros ->. apply Hk. by left.
        -- rewrite Hv1. apply Hver. by left.
        -- intros Hin. apply Hk. by right.
        -- intros t Ht. rewrite Hv2, Hv1. apply Hver. by right.
      * cbn [fst]. split; [congruence |]. split; [congruence |].
        intros k Hk Hver. rewrite Hf2, Hf1.
        -- done.
        -- intros ->. apply Hk. by left.
        -- rewrite Hv1. apply Hver. by left.
    + destruct (IH cfg1) as (Hv & Hd & Hf).
      split; [congruence |]. split; [congruence |].
      intros k Hk Hver. rewrite Hf, Hf1.
      * done.
      * intros ->. apply Hk. by left.
      * intros Hin. apply Hk. by right.
      * intros t Ht. rewrite Hv1. apply Hver. by right.
  - cbn [fst]. split; [done |]. split; [done |].
    intros k Hk Hver. apply Hf1. intros ->. apply Hk. by left.
Qed.

(** X9.  A resource that is none of the four targets and none of their
    versioned counterparts is left as it is, whatever the schema and
    however the call ends. *)
Theorem item_scope_frame (name : string) (schema : option (gmap string pyval))
    (cfg : config) (k : string) :
  k ∉ target_resources →
  (∀ t, t ∈ target_resources → k ≠ t +:+ VERSIONS cfg) →
  DOMAIN (item_scope name schema cfg).1 !! k = DOMAIN cfg !! k.
Proof.
  intros Hk Hver. unfold item_scope. destruct schema as [fragment |]; [| done].
  set (cfg0 := mkConfig _ (DOMAIN cfg) (VERSIONS cfg)).
  destruct (update_resources_frame fragment target_resources cfg0) as (_ & _ & Hf).
  by rewrite Hf.
Qed.

(** X10.  [item_scope] never adds a resource to the domain set, never
    removes one, and leaves the version marker alone: a versioned
    counterpart that is missing stays missing. *)
Theorem item_scope_domain_names (name : string) (schema : option (gmap string pyval))
    (cfg : config) :
  dom (DOMAIN (item_scope name schema cfg).1) = dom (DOMAIN cfg) ∧
  VERSIONS (item_scope name schema cfg).1 = VERSIONS cfg.
Proof.
  unfold item_scope. destruct schema as [fragment |]; [| done].
  set (cfg0 := mkConfig _ (DOMAIN cfg) (VERSIONS cfg)).
  destruct (update_resources_frame fragment target_resources cfg0) as (Hv & Hd & _).
  by split.
Qed.

(** The scopes declared under other names stay as they are; declaring
    a name again replaces its entry.  This holds however the call ends. *)
Theorem item_scope_keeps_scopes (name : string) (schema : option (gmap string pyval))
    (cfg : config) :
  cfg_item_scope (item_scope name schema cfg).1 =
  Some (<[name := {| scope_schema := schema |}]> (default ∅ (cfg_item_scope cfg))).
Proof.
  unfold item_scope. destruct schema as [fragment |]; [| done].
  by rewrite update_resources_scope.
Qed.

(** The rule of field [y] in the schema of resource [t], and its marker in
    the projection, when the resource has a schema, or a projection. *)
Definition schema_field (cfg : config) (t y : string) : option (option pyval) :=
  match DOMAIN cfg !! t with
  | Some r =>
      match res_schema r with
      | Some sch => Some (sch !! y)
      | None => None
      end
  | None => None
  end.

Definition projection_field (cfg : config) (t y : string) : option (option Z) :=
  match DOMAIN cfg !! t with
  | Some r =>
      match res_datasource r with
      | Some ds =>
          match projection ds with
          | Some proj => Some (proj !! y)
          | None => None
          end
      | None => None
      end
  | None => None
  end.

Lemma update_resource_schema_other_fields (schema : gmap string pyval)
    (name : string) (cfg : config) (t y : string) :
  schema !! y = None →
  schema_field (update_resource_schema schema name cfg).1 t y = schema_field cfg t y ∧
  projection_field (update_resource_schema schema name cfg).1 t y
    = projection_field cfg t y.
Proof.
  intros Hy. unfold update_resource_schema. case_decide; [done |].
  destruct (DOMAIN cfg !! name) as [r |] eqn:Hr; [| done].
  destruct (res_schema r) as [sch |] eqn:Hsch; [| done].
  unfold schema_field, projection_field.
  destruct (res_datasource r) as [ds |] eqn:Hds;
    [destruct (projection ds) as [proj |] eqn:Hproj |]; cbn [fst DOMAIN];
    (destruct (decide (t = name)) as [-> | Hne];
     [rewrite lookup_insert_eq, Hr; cbn [res_schema res_datasource projection];
      rewrite ?Hsch, ?Hds, ?Hproj
     | by rewrite lookup_insert_ne]).
  - split; f_equal.
    + by apply lookup_union_r.
    + apply lookup_union_r. by rewrite lookup_fmap, Hy.
  - split; [f_equal; by apply lookup_union_r | done].
  - split; [f_equal; by apply lookup_union_r | done].
Qed.

Lemma update_resources_other_fields (schema : gmap string pyval)
    (resources : list string) (t y : string) :
  schema !! y = None →
  ∀ cfg,
    schema_field (update_resources schema resources cfg).1 t y = schema_field cfg t y ∧
    projection_field (update_resources schema resources cfg).1 t y
      = projection_field cfg t y.
Proof.
  intros Hy. induction resources as [| name rest IH]; intros cfg; [done |].
  cbn [update_resources].
  destruct (update_resource_schema_other_fields schema name cfg t y Hy) as [Hs1 Hp1].
  destruct (update_resource_schema schema name cfg) as [cfg1 [| e]];
    cbn [fst] in Hs1, Hp1; [| done].
  destruct (DOMAIN cfg1 !! (name +:+ VERSIONS cfg1)).
  - destruct (update_resource_schema_other_fields schema (name +:+ VERSIONS cfg1)
                cfg1 t y Hy) as [Hs2 Hp2].
    destruct (update_resource_schema schema (name +:+ VERSIONS cfg1) cfg1)
      as [cfg2 [| e]]; cbn [fst] in Hs2, Hp2.
    + destruct (IH cfg2) as [Hs Hp]. split; congruence.
    + cbn [fst]. split; congruence.
  - destruct (IH cfg1) as [Hs Hp]. split; congruence.
Qed.

(** X11.  A field that the schema fragment does not name keeps its rule in
    the schema and its marker in the projection of every resource (and a
    field that a resource does not have is not added to it), however the
    call ends. *)
Theorem item_scope_other_fields (name : string) (schema : gmap string pyval)
    (cfg : config) (t y : string) :
  schema !! y = None →
  schema_field (item_scope name (Some schema) cfg).1 t y = schema_field cfg t y ∧
  projection_field (item_scope name (Some schema) cfg).1 t y
    = projection_field cfg t y.
Proof.
  intros Hy. unfold item_scope.
  set (cfg0 := mkConfig _ (DOMAIN cfg) (VERSIONS cfg)).
  apply (update_resources_other_fields schema target_resources t y Hy cfg0).
Qed.

(** X12.  The update of a resource is not atomic either: when [archive]
    has a schema but no [datasource] entry, the fragment has been merged
    into its schema by the time the [KeyError] is raised, and the other
    targets have not been touched. *)
Theorem item_scope_partial_update (name : string) (schema sch : gmap string pyval)
    (cfg : config) (r : resource) :
  size schema ≠ 0 →
  DOMAIN cfg !! "archive" = Some r →
  res_schema r = Some sch → res_datasource r = None →
  item_scope name (Some schema) cfg =
    (mkConfig
       (Some (<[name := {| scope_schema := Some schema |}]>
                (default ∅ (cfg_item_scope cfg))))
       (<["archive" := {| res_schema := Some (schema ∪ sch);
                          res_datasource := None |}]> (DOMAIN cfg))
       (VERSIONS cfg),
     Raised (KeyError "datasource")).
Proof.
  intros Hsize Hr Hsch Hds. unfold item_scope, target_resources.
  cbn [update_resources]. unfold update_resource_schema.
  rewrite decide_False by done. cbn [DOMAIN cfg_item_scope VERSIONS].
  by rewrite Hr, Hsch, Hds.
Qed.

(** *** Declaring a scope twice *)

(** Resource [name] has a schema and a projection that already hold all of
    the fragment. *)
Definition absorbed (schema : gmap string pyval) (cfg : config) (name : string) : Prop :=
  ∃ sch proj,
    DOMAIN cfg !! name =
      Some {| res_schema := Some sch;
              res_datasource := Some {| projection := Some proj |} |} ∧
    schema ∪ sch = sch ∧
    ((λ _, 1%Z) <$> schema) ∪ proj = proj.

Lemma update_resource_schema_absorbed (schema : gmap string pyval) (name : string)
    (cfg : config) :
  size schema ≠ 0 → absorbed schema cfg name →
  update_resource_schema schema name cfg = (cfg, Returned).
Proof.
  intros Hsize (sch & proj & Hr & Hs & Hp). unfold update_resource_schema.
  rewrite decide_False by done. rewrite Hr. cbn [res_schema res_datasource projection].
  rewrite Hs, Hp, insert_id by done. by destruct cfg.
Qed.

Lemma update_resource_schema_returned (schema : gmap string pyval) (name : string)
    (cfg cfg1 : config) :
  update_resource_schema schema name cfg = (cfg1, Returned) →
  size schema ≠ 0 ∧ absorbed schema cfg1 name ∧
  (∀ k, absorbed schema cfg k → absorbed schema cfg1 k).
Proof.
  unfold update_resource_schema. case_decide as Hsize; [done |].
  destruct (DOMAIN cfg !! name) as [r |] eqn:Hr; [| done].
  destruct (res_schema r) as [sch |] eqn:Hsch; [| done].
  destruct (res_datasource r) as [ds |] eqn:Hds; [| done].
  destruct (projection ds) as [proj |] eqn:Hproj; [| done].
  intros [= <-]. split; [done |].
  assert (Hnew : absorbed schema
            (mkConfig (cfg_item_scope cfg)
               (<[name := {| res_schema := Some (schema ∪ sch);
                             res_datasource :=
                               Some {| projection :=
                                         Some (((λ _, 1%Z) <$> schema) ∪ proj) |} |}]>
                  (DOMAIN cfg)) (VERSIONS cfg)) name).
  { exists (schema ∪ sch), (((λ _, 1%Z) <$> schema) ∪ proj). cbn [DOMAIN].
    rewrite lookup_insert_eq. split; [done |].
    by rewrite !(assoc (∪)), !(idemp (∪)). }
  split; [exact Hnew |].
  intros k Hk. destruct (decide (k = name)) as [-> | Hne]; [exact Hnew |].
  destruct Hk as (sch' & proj' & Hk & Hs & Hp). exists sch', proj'. cbn [DOMAIN].
  by rewrite lookup_insert_ne.
Qed.

Lemma update_resources_absorbed (schema : gmap string pyval) (resources : list string) :
  size schema ≠ 0 →
  ∀ cfg,
    (∀ t, t ∈ resources →
       absorbed schema cfg t ∧
       (is_Some (DOMAIN cfg !! (t +:+ VERSIONS cfg)) →
        absorbed schema cfg (t +:+ VERSIONS cfg))) →
    update_resources schema resources cfg = (cfg, Returned).
Proof.
  intros Hsize. induction resources as [| name rest IH]; intros cfg Hall; [done |].
  destruct (Hall name) as [Hname Hversioned]; [by left |].
  cbn [update_resources].
  rewrite (update_resource_schema_absorbed schema name cfg Hsize Hname).
  destruct (DOMAIN cfg !! (name +:+ VERSIONS cfg)) as [rv |] eqn:Hlook.
  - rewrite (update_resource_schema_absorbed schema _ cfg Hsize);
      [| apply Hversioned; eauto].
    apply IH. intros t Ht. apply Hall. by right.
  - apply IH. intros t Ht. apply Hall. by right.
Qed.

Lemma update_resources_returned (schema : gmap string pyval) (resources : list string) :
  ∀ cfg cfg',
    update_resources schema resources cfg = (cfg', Returned) →
    (resources ≠ [] → size schema ≠ 0) ∧
    (∀ k, absorbed schema cfg k → absorbed schema cfg' k) ∧
    (∀ t, t ∈ resources →
       absorbed schema cfg' t ∧
       (is_Some (DOMAIN cfg' !! (t +:+ VERSIONS cfg')) →
        absorbed schema cfg' (t +:+ VERSIONS cfg'))).
Proof.
  induction resources as [| name rest IH]; intros cfg cfg'.
  - intros [= <-]. split; [done |]. split; [done |].
    intros t Ht. by apply elem_of_nil in Ht.
  - cbn [update_resources].
    destruct (update_resource_schema schema name cfg) as [cfg1 [| e]] eqn:Hrun1;
      [| done].
    destruct (update_resource_schema_returned _ _ _ _ Hrun1) as (Hsize & Hname1 & Hkeep1).
    destruct (DOMAIN cfg1 !! (name +:+ VERSIONS cfg1)) as [rv |] eqn:Hlook.
    + destruct (update_resource_schema schema (name +:+ VERSIONS cfg1) cfg1)
        as [cfg2 [| e]] eqn:Hrun2; [| done].
      destruct (update_resource_schema_returned _ _ _ _ Hrun2) as (_ & Hver2 & Hkeep2).
      pose proof (update_resource_schema_frame schema (name +:+ VERSIONS cfg1) cfg1)
        as (Hv2 & _ & _). rewrite Hrun2 in Hv2. cbn [fst] in Hv2.
      intros Hrun. destruct (IH _ _ Hrun) as (_ & Hkeep & Hall).
      pose proof (update_resources_frame schema rest cfg2) as (Hv & _ & _).
      rewrite Hrun in Hv. cbn [fst] in Hv.
      split; [done |]. split; [by intros k Hk; apply Hkeep, Hkeep2, Hkeep1 |].
      intros t Ht. apply elem_of_cons in Ht as [-> | Ht]; [| by apply Hall].
      split; [by apply Hkeep, Hkeep2 |]. intros _.
      rewrite Hv, Hv2. by apply Hkeep.
    + intros Hrun. destruct (IH _ _ Hrun) as (_ & Hkeep & Hall).
      pose proof (update_resources_frame schema rest cfg1) as (Hv & Hd & _).
      rewrite Hrun in Hv, Hd. cbn [fst] in Hv, Hd.
      split; [done |]. split; [by intros k Hk; apply Hkeep, Hkeep1 |].
      intros t Ht. apply elem_of_cons in Ht as [-> | Ht]; [| by apply Hall].
      split; [by apply Hkeep |]. rewrite Hv. intros Hsome.
      apply elem_of_dom in Hsome. rewrite Hd in Hsome.
      apply elem_of_dom in Hsome. rewrite Hlook in Hsome. by destruct Hsome.
Qed.

(** X13.  Declaring a scope is idempotent: when a call has returned, the
    same call on the configuration it produced returns that configuration
    unchanged. *)
Theorem item_scope_idempotent (name : string) (schema : option (gmap string pyval))
    (cfg cfg1 : config) :
  item_scope name schema cfg = (cfg1, Returned) →
  item_scope name schema cfg1 = (cfg1, Returned).
Proof.
  destruct schema as [fragment |]; unfold item_scope.
  - intros Hrun.
    pose proof (update_resources_scope fragment target_resources
                  (mkConfig
                     (Some (<[name := {| scope_schema := Some fragment |}]>
                              (default ∅ (cfg_item_scope cfg))))
                     (DOMAIN cfg) (VERSIONS cfg))) as Hscope.
    rewrite Hrun in Hscope. cbn [fst cfg_item_scope] in Hscope.
    destruct (update_resources_returned _ _ _ _ Hrun) as (Hsize & _ & Hall).
    assert (Hsame :
      mkConfig
        (Some (<[name := {| scope_schema := Some fragment |}]>
                 (default ∅ (cfg_item_scope cfg1))))
        (DOMAIN cfg1) (VERSIONS cfg1) = cfg1).
    { destruct cfg1 as [scopes domain versions]. simpl in Hscope. subst scopes.
      simpl. unfold id. by rewrite insert_insert_eq. }
    rewrite Hsame.
    apply update_resources_absorbed; [by apply Hsize | exact Hall].
  - intros [= <-]. simpl. unfold id. by rewrite insert_insert_eq.
Qed.

(** A domain set with the four target resources and the versioned
    counterpart of [archive]. *)
Definition plain_resource : resource :=
  {| res_schema := Some {[ "headline" := PyStr "string" ]};
     res_datasource := Some {| projection := Some {[ "headline" := 1%Z ]} |} |}.

Definition demo_config : config :=
  mkConfig None
    {[ "archive" := plain_resource; "archive_autosave" := plain_resource;
       "published" := plain_resource; "archived" := plain_resource;
       "archive_versions" := plain_resource ]}
    "_versions".

Lemma item_scope_propagates_witness :
  ∃ cfg',
    item_scope "planning" (Some {[ "x" := PyStr "rule" ]}) demo_config
      = (cfg', Returned) ∧
    has_field cfg' "archived" "x" (PyStr "rule") ∧
    has_field cfg' "archive_versions" "x" (PyStr "rule").
Proof.
  destruct (item_scope_propagates "planning" {[ "x" := PyStr "rule" ]} "x"
              (PyStr "rule") demo_config) as (cfg' & Hrun & Hall).
  - reflexivity.
  - intros t Ht. exists plain_resource, {[ "headline" := PyStr "string" ]},
      {| projection := Some {[ "headline" := 1%Z ]} |}, {[ "headline" := 1%Z ]}.
    repeat (apply elem_of_cons in Ht as [-> | Ht]; [repeat split |]).
    by apply elem_of_nil in Ht.
  - intros t Ht Hs. exists plain_resource, {[ "headline" := PyStr "string" ]},
      {| projection := Some {[ "headline" := 1%Z ]} |}, {[ "headline" := 1%Z ]}.
    repeat (apply elem_of_cons in Ht as [-> | Ht];
            [first [by repeat split | by destruct Hs as [r Hr]; vm_compute in Hr] |]).
    by apply elem_of_nil in Ht.
  - exists cfg'. split; [exact Hrun |]. split.
    + apply (Hall "archived"). do 3 apply list_elem_of_further.
      apply list_elem_of_here.
    + apply (Hall "archive"); [apply list_elem_of_here |].
      by exists plain_resource.
Defined.

(** The four target resources, of which [archived] has a data source
    without projection. *)
Definition demo_config_no_projection : config :=
  mkConfig None
    {[ "archive" := plain_resource; "archive_autosave" := plain_resource;
       "published" := plain_resource;
       "archived" :=
         {| res_schema := Some {[ "headline" := PyStr "string" ]};
            res_datasource := Some {| projection := None |} |} ]}
    "_versions".

(** C5 as stated for every call fails there: the call raises at [archived],
    which is left without a projection, so the field is in no projection
    of that resource. *)
Lemma item_scope_no_projection :
  (item_scope "planning" (Some {[ "x" := PyStr "rule" ]})
     demo_config_no_projection).2 = Raised (KeyError "projection") ∧
  res_datasource <$>
    DOMAIN (item_scope "planning" (Some {[ "x" := PyStr "rule" ]})
              demo_config_no_projection).1 !! "archived"
  = Some (Some {| projection := None |}).
Proof. split; vm_compute; reflexivity. Qed.

(** The same domain set with a resource that is no target. *)
Definition demo_config_users : config :=
  mkConfig (Some {[ "planning" := {| scope_schema := None |} ]})
    (<["users" := plain_resource]> (DOMAIN demo_config)) "_versions".

Lemma item_scope_frame_witness :
  DOMAIN (item_scope "events" (Some {[ "x" := PyStr "rule" ]}) demo_config_users).1
    !! "users" = Some plain_resource.
Proof.
  refine (eq_trans (item_scope_frame "events" (Some {[ "x" := PyStr "rule" ]})
                      demo_config_users "users" _ _) _).
  - intros Hin.
    repeat (apply elem_of_cons in Hin as [[=] | Hin]). by apply elem_of_nil in Hin.
  - intros t Ht.
    repeat (apply elem_of_cons in Ht as [-> | Ht]; [discriminate |]).
    by apply elem_of_nil in Ht.
  - reflexivity.
Defined.

Lemma item_scope_other_fields_witness :
  schema_field (item_scope "events" (Some {[ "x" := PyStr "rule" ]}) demo_config).1
    "archive" "headline" = Some (Some (PyStr "string")) ∧
  projection_field (item_scope "events" (Some {[ "x" := PyStr "rule" ]}) demo_config).1
    "archive" "slugline" = Some None.
Proof.
  split.
  - exact (proj1 (item_scope_other_fields "events" {[ "x" := PyStr "rule" ]}
                    demo_config "archive" "headline" eq_refl)).
  - exact (proj2 (item_scope_other_fields "events" {[ "x" := PyStr "rule" ]}
                    demo_config "archive" "slugline" eq_refl)).
Defined.

Lemma item_scope_partial_update_witness :
  item_scope "events" (Some {[ "x" := PyStr "rule" ]})
    (mkConfig None
       {[ "archive" := {| res_schema := Some {[ "headline" := PyStr "string" ]};
                          res_datasource := None |} ]} "_versions")
  = (mkConfig (Some {[ "events" := {| scope_schema := Some {[ "x" := PyStr "rule" ]} |} ]})
       {[ "archive" := {| res_schema := Some {[ "x" := PyStr "rule";
                                                "headline" := PyStr "string" ]};
                          res_datasource := None |} ]} "_versions",
     Raised (KeyError "datasource")).
Proof.
  refine (eq_trans (item_scope_partial_update "events" {[ "x" := PyStr "rule" ]}
                      {[ "headline" := PyStr "string" ]}
                      (mkConfig None
                         {[ "archive" :=
                              {| res_schema := Some {[ "headline" := PyStr "string" ]};
                                 res_datasource := None |} ]} "_versions")
                      {| res_schema := Some {[ "headline" := PyStr "string" ]};
                         res_datasource := None |}
                      _ eq_refl eq_refl eq_refl) _).
  - discriminate.
  - reflexivity.
Defined.

Lemma item_scope_idempotent_witness :
  item_scope "events" (Some {[ "x" := PyStr "rule" ]})
    (item_scope "events" (Some {[ "x" := PyStr "rule" ]}) demo_config).1
  = ((item_scope "events" (Some {[ "x" := PyStr "rule" ]}) demo_config).1, Returned).
Proof.
  exact (item_scope_idempotent "events" (Some {[ "x" := PyStr "rule" ]})
           demo_config _ eq_refl).
Defined.

End ItemScope.

(** ** Locale resolver ([get_locale]) *)

Module Locale.

(** [s.replace(old, new)] for one-character [old] and [new]. *)
Fixpoint replace (old new : ascii) (s : string) : string :=
  match s with
  | EmptyString => EmptyString
  | String c s' => String (if Ascii.eqb c old then new else c) (replace old new s')
  end.

(** [v.replace("-", "_")]: only a string has the method. *)
Definition normalized (v : pyval) : result string :=
  match v with
  | PyStr s => Ok (replace "-" "_" s)
  | _ => Raise (AttributeError "replace")
  end.

(** [app.config.get("DEFAULT_LANGUAGE", "en")]. *)
Definition default_language (app_config : gmap string pyval) : pyval :=
  default (PyStr "en") (app_config !! "DEFAULT_LANGUAGE").

(** What the attribute [user] of [g] holds when it is set: a mapping (the
    user document), or a value without a [get] method, such as [None]. *)
Inductive request_user : Type :=
| UserMapping (user : gmap string pyval)
| UserNotMapping.

(** [getattr(g, "user", {})]. *)
Definition getattr_user (g_user : option request_user) : request_user :=
  default (UserMapping ∅) g_user.

Section Resolve.

(** Babel's [parse_locale], of which only the outcome matters: it returns
    the parts of the tag or raises. *)
Variable parse_locale : string -> outcome.

(** [g_user] is the attribute [user] of [g] when it is set.  [user.get]
    is looked up before its arguments are evaluated and outside the [try]:
    a value without the method raises [AttributeError] there. *)
Definition get_locale (g_user : option request_user)
    (app_config : gmap string pyval) : result string :=
  match getattr_user g_user with
  | UserNotMapping => Raise (AttributeError "get")
  | UserMapping user =>
      let user_language :=
        default (default_language app_config) (user !! "language") in
      match normalized user_language with
      | Raise e => Raise e
      | Ok tag =>
          match parse_locale tag with
          | Returned => normalized user_language
          | Raised (ValueError _) => normalized (default_language app_config)
          | Raised e => Raise e
          end
      end
  end.

(** The language preference of the request, if it has one. *)
Definition preference (g_user : option request_user) : option pyval :=
  match getattr_user g_user with
  | UserMapping user => user !! "language"
  | UserNotMapping => None
  end.

(** On a string Babel's parser fails with [ValueError] only. *)
Hypothesis parse_locale_errors :
  ∀ tag e, parse_locale tag = Raised e → ∃ msg, e = ValueError msg.

(** C7, for preferences that are strings.  When [g.user] is not set or is
    a mapping, and the configured default is a string: a preference that is
    a string and parses as a locale tag (once hyphens are replaced by
    underscores) resolves to its normalised form, so ["en-US"] resolves to
    ["en_US"] when that parses; a string that does not parse, or no
    preference at all, resolves to the normalised default; and when the
    preference, if there is one, is a string, the resolver returns: it does
    not raise.  When [g.user] is set to a value without [get], the resolver
    raises [AttributeError]. *)
Theorem locale_resolution (g_user : option request_user)
    (app_config : gmap string pyval) (fallback : string) :
  default_language app_config = PyStr fallback →
  (∀ user, getattr_user g_user = UserMapping user →
     (∀ lang, user !! "language" = Some (PyStr lang) →
        (parse_locale (replace "-" "_" lang) = Returned →
         get_locale g_user app_config = Ok (replace "-" "_" lang)) ∧
        (parse_locale (replace "-" "_" lang) ≠ Returned →
         get_locale g_user app_config = Ok (replace "-" "_" fallback))) ∧
     (user !! "language" = None →
      get_locale g_user app_config = Ok (replace "-" "_" fallback)) ∧
     (user !! "language" = Some (PyStr "en-US") → parse_locale "en_US" = Returned →
      get_locale g_user app_config = Ok "en_US") ∧
     ((∀ v, user !! "language" = Some v → ∃ lang, v = PyStr lang) →
      ∃ tag, get_locale g_user app_config = Ok tag)) ∧
  (getattr_user g_user = UserNotMapping →
   get_locale g_user app_config = Raise (AttributeError "get")).
Proof using parse_locale_errors.
  intros Hdefault. split; [| by (unfold get_locale; intros ->)].
  intros user Huser.
  assert (Hstr : ∀ lang, user !! "language" = Some (PyStr lang) →
            get_locale g_user app_config =
            match parse_locale (replace "-" "_" lang) with
            | Returned => Ok (replace "-" "_" lang)
            | Raised _ => Ok (replace "-" "_" fallback)
            end).
  { intros lang Hpref. unfold get_locale.
    rewrite Huser, Hpref, Hdefault. simpl.
    destruct (parse_locale (replace "-" "_" lang)) as [| e] eqn:Hparse; [done |].
    by destruct (parse_locale_errors _ _ Hparse) as [msg ->]. }
  assert (Hnone : user !! "language" = None →
            get_locale g_user app_config = Ok (replace "-" "_" fallback)).
  { intros Hpref. unfold get_locale.
    rewrite Huser, Hpref, Hdefault. simpl.
    destruct (parse_locale (replace "-" "_" fallback)) as [| e] eqn:Hparse; [done |].
    by destruct (parse_locale_errors _ _ Hparse) as [msg ->]. }
  split; [| split; [| split]].
  - intros lang Hpref. rewrite (Hstr lang Hpref). split.
    + by intros ->.
    + intros Hbad. by destruct (parse_locale (replace "-" "_" lang)).
  - exact Hnone.
  - intros Hpref Hparse. rewrite (Hstr _ Hpref). simpl. by rewrite Hparse.
  - intros Htyped. destruct (user !! "language") as [v |] eqn:Hpref.
    + destruct (Htyped v eq_refl) as [lang ->]. rewrite (Hstr lang eq_refl).
      destruct (parse_locale (replace "-" "_" lang)); eauto.
    + rewrite (Hnone eq_refl). eauto.
Qed.

(** The theorem stops at strings: a preference of another type has no
    [replace] method, and the [AttributeError] is not caught. *)
Lemma get_locale_not_a_string (g_user : option request_user)
    (app_config : gmap string pyval) (v : pyval) :
  preference g_user = Some v → (∀ lang, v ≠ PyStr lang) →
  get_locale g_user app_config = Raise (AttributeError "replace").
Proof.
  intros Hpref Hv. unfold get_locale. unfold preference in Hpref.
  destruct (getattr_user g_user) as [user |]; [| done]. rewrite Hpref.
  simpl. destruct v; try done. by destruct (Hv s).
Qed.

Lemma replace_removes (old new : ascii) (s : string) :
  old ≠ new → old ∉ list_ascii_of_string (replace old new s).
Proof.
  intros Hne. induction s as [| c s IH]; simpl; [apply not_elem_of_nil |].
  apply not_elem_of_cons. split; [| done].
  destruct (Ascii.eqb_spec c old); congruence.
Qed.

(** X24.  Whatever the parser does, a tag that the resolver returns holds no
    hyphen, and it is the normalised preference or the normalised default,
    nothing else. *)
Theorem get_locale_result (g_user : option request_user)
    (app_config : gmap string pyval) (tag : string) :
  get_locale g_user app_config = Ok tag →
  ("-"%char ∉ list_ascii_of_string tag) ∧
  ((∃ lang, preference g_user = Some (PyStr lang) ∧ tag = replace "-" "_" lang) ∨
   (∃ fallback, default_language app_config = PyStr fallback ∧
                tag = replace "-" "_" fallback)).
Proof.
  unfold get_locale, preference.
  assert (Hnorm : ∀ v t, normalized v = Ok t →
            ("-"%char ∉ list_ascii_of_string t) ∧ ∃ s, v = PyStr s ∧ t = replace "-" "_" s).
  { intros v t. destruct v; try done. intros [= <-].
    split; [by apply replace_removes | eauto]. }
  destruct (getattr_user g_user) as [user |]; [| done].
  destruct (user !! "language") as [v |] eqn:Hpref; simpl.
  - destruct (normalized v) as [t |] eqn:Hv; [| done].
    destruct (parse_locale t) as [| e].
    + intros [= <-]. destruct (Hnorm _ _ Hv) as (Hno & lang & -> & ->).
      split; [done |]. left. eauto.
    + destruct e; try done. intros Hrun.
      destruct (Hnorm _ _ Hrun) as (Hno & fallback & Hd & ->).
      split; [done |]. right. eauto.
  - destruct (normalized (default_language app_config)) as [t |] eqn:Hd; [| done].
    destruct (Hnorm _ _ Hd) as (Hno & fallback & Hf & ->).
    destruct (parse_locale (replace "-" "_" fallback)) as [| e].
    + intros [= <-]. split; [done |]. right. eauto.
    + destruct e; try done. intros [= <-]. split; [done |]. right. eauto.
Qed.

(** Only [ValueError] is caught: when the parser fails in another
    way on the normalised preference, the resolver raises that error. *)
Theorem get_locale_parser_error (g_user : option request_user)
    (app_config : gmap string pyval) (lang : string) (e : exn) :
  preference g_user = Some (PyStr lang) →
  parse_locale (replace "-" "_" lang) = Raised e →
  (∀ msg, e ≠ ValueError msg) →
  get_locale g_user app_config = Raise e.
Proof.
  intros Hpref Hparse He. unfold get_locale. unfold preference in Hpref.
  destruct (getattr_user g_user) as [user |]; [| done].
  rewrite Hpref. simpl. rewrite Hparse. destruct e; try done. by destruct (He msg).
Qed.

End Resolve.

Example replace_hyphen : replace "-" "_" "zh-Hant-TW" = "zh_Hant_TW".
Proof. reflexivity. Qed.

(** *** A tag parser in the manner of Babel's *)

Definition is_alpha_ascii (c : ascii) : bool :=
  Config.is_upper_ascii c || Config.is_lower_ascii c.

Definition is_digit_ascii (c : ascii) : bool :=
  (48 <=? nat_of_ascii c)%nat && (nat_of_ascii c <=? 57)%nat.

(** [s.isalpha()] and [s.isdigit()] on ASCII text: not empty, and every
    character of the class. *)
Definition isalpha (s : string) : bool :=
  negb (String.eqb s "") && forallb is_alpha_ascii (list_ascii_of_string s).

Definition isdigit (s : string) : bool :=
  negb (String.eqb s "") && forallb is_digit_ascii (list_ascii_of_string s).

(** [s.split(sep)]. *)
Fixpoint split (sep : ascii) (s : string) : list string :=
  match s with
  | EmptyString => [EmptyString]
  | String c s' =>
      if Ascii.eqb c sep then EmptyString :: split sep s'
      else
        match split sep s' with
        | part :: parts => String c part :: parts
        | [] => [String c EmptyString]
        end
  end.

Definition first_is (class : ascii -> bool) (s : string) : bool :=
  match s with
  | EmptyString => false
  | String c _ => class c
  end.

(** A language, then optionally a script, a territory and a variant,
    separated by underscores; an encoding or modifier suffix is dropped. *)
Definition parse_tag (identifier : string) : outcome :=
  let identifier := hd "" (split "." identifier) in
  let identifier := hd "" (split "@" identifier) in
  match split "_" identifier with
  | [] => Raised (ValueError "empty identifier")
  | lang :: parts =>
      if negb (isalpha lang) then Raised (ValueError "expected only letters")
      else
        let parts :=
          match parts with
          | p :: rest =>
              if (String.length p =? 4)%nat && isalpha p then rest else parts
          | [] => []
          end in
        let parts :=
          match parts with
          | p :: rest =>
              if (String.length p =? 2)%nat && isalpha p then rest
              else if (String.length p =? 3)%nat && isdigit p then rest
              else parts
          | [] => []
          end in
        let parts :=
          match parts with
          | p :: _ =>
              if ((String.length p =? 4)%nat && first_is is_digit_ascii p)
                 || ((5 <=? String.length p)%nat && first_is is_alpha_ascii p)
              then removelast parts else parts
          | [] => []
          end in
        match parts with
        | [] => Returned
        | _ :: _ => Raised (ValueError "not a valid locale identifier")
        end
  end.

Example split_tag : split "_" "zh_Hant_TW" = ["zh"; "Hant"; "TW"].
Proof. reflexivity. Qed.

Example parse_tag_territory : parse_tag "en_US" = Returned.
Proof. reflexivity. Qed.

Example parse_tag_script : parse_tag "zh_Hant_TW" = Returned.
Proof. reflexivity. Qed.

Example parse_tag_digit : parse_tag "e1" = Raised (ValueError "expected only letters").
Proof. reflexivity. Qed.

Example parse_tag_empty : parse_tag "" = Raised (ValueError "expected only letters").
Proof. reflexivity. Qed.

Lemma parse_tag_errors (tag : string) (e : exn) :
  parse_tag tag = Raised e → ∃ msg, e = ValueError msg.
Proof.
  unfold parse_tag.
  repeat match goal with
         | |- context [match ?t with _ => _ end] => destruct t
         end; intros [=]; subst; eauto.
Qed.

(** C7 as stated for every preference fails at [null]: the value has no
    [replace] method and the resolver raises. *)
Lemma get_locale_null_preference :
  get_locale parse_tag (Some (UserMapping {[ "language" := PyNone ]}))
    {[ "DEFAULT_LANGUAGE" := PyStr "en" ]} = Raise (AttributeError "replace").
Proof. reflexivity. Qed.

(** A request whose [g.user] is [None]: the lookup of [get] raises. *)
Example get_locale_user_none :
  get_locale parse_tag (Some UserNotMapping) {[ "DEFAULT_LANGUAGE" := PyStr "de-AT" ]}
  = Raise (AttributeError "get") ∧
  get_locale parse_tag None {[ "DEFAULT_LANGUAGE" := PyStr "de-AT" ]} = Ok "de_AT".
Proof. split; reflexivity. Qed.

Lemma locale_resolution_witness :
  get_locale parse_tag (Some (UserMapping {[ "language" := PyStr "en-US" ]}))
    {[ "DEFAULT_LANGUAGE" := PyStr "de-AT" ]} = Ok "en_US" ∧
  get_locale parse_tag (Some (UserMapping {[ "language" := PyStr "e1" ]}))
    {[ "DEFAULT_LANGUAGE" := PyStr "de-AT" ]} = Ok "de_AT".
Proof.
  split.
  - refine (proj1 (proj1 (proj1 (locale_resolution parse_tag parse_tag_errors
              (Some (UserMapping {[ "language" := PyStr "en-US" ]}))
              {[ "DEFAULT_LANGUAGE" := PyStr "de-AT" ]} "de-AT" eq_refl)
              {[ "language" := PyStr "en-US" ]} eq_refl)
              "en-US" eq_refl) eq_refl).
  - refine (proj2 (proj1 (proj1 (locale_resolution parse_tag parse_tag_errors
              (Some (UserMapping {[ "language" := PyStr "e1" ]}))
              {[ "DEFAULT_LANGUAGE" := PyStr "de-AT" ]} "de-AT" eq_refl)
              {[ "language" := PyStr "e1" ]} eq_refl)
              "e1" eq_refl) _).
    discriminate.
Defined.

Lemma get_locale_result_witness :
  ("-"%char ∉ list_ascii_of_string "en_US") ∧
  ((∃ lang, preference (Some (UserMapping {[ "language" := PyStr "en-US" ]})) = Some (PyStr lang) ∧
            "en_US" = replace "-" "_" lang) ∨
   (∃ fallback, default_language ∅ = PyStr fallback ∧
                "en_US" = replace "-" "_" fallback)).
Proof.
  exact (get_locale_result parse_tag (Some (UserMapping {[ "language" := PyStr "en-US" ]})) ∅
           "en_US" eq_refl).
Defined.

(** A parser that is interrupted. *)
Definition interrupted_parser (tag : string) : outcome :=
  Raised (OtherError "interrupted").

Lemma get_locale_parser_error_witness :
  get_locale interrupted_parser (Some (UserMapping {[ "language" := PyStr "en-US" ]})) ∅
  = Raise (OtherError "interrupted").
Proof.
  refine (get_locale_parser_error interrupted_parser
            (Some (UserMapping {[ "language" := PyStr "en-US" ]})) ∅ "en-US"
            (OtherError "interrupted") eq_refl eq_refl _).
  discriminate.
Defined.

End Locale.

(** ** Module installer ([install_app] and the two loops of [get_app]) *)

Module Installer.
Section Install.

(** The live application (and whatever process state a module can reach
    from it).  The closure variable [installed] is not part of it: no
    module can reach it. *)
Variable App : Type.

(** A loaded module: [hasattr(app_module, "init_app")] is [init_app <> None].
    A hook mutates the application and returns or raises. *)
Record PyModule : Type := { init_app : option (App -> App * outcome) }.

(** [importlib.import_module]: loading may run module code against the
    process state, and yields the module or raises. *)
Variable import_module : string -> App -> App * result PyModule.

(** Ghost events recording what [install_app] did, in order. *)
Inductive event : Type :=
| EvMark (module_name : string)   (* installed.add(module_name) *)
| EvHook (module_name : string)   (* app_module.init_app(app) is entered *)
| EvDone (module_name : string).  (* install_app(module_name) returned *)

Definition ev_module (e : event) : string :=
  match e with EvMark m | EvHook m | EvDone m => m end.

#[global] Instance event_eq_dec : EqDecision event.
Proof. solve_decision. Defined.

Record state : Type := mkState {
  installed : gset string;
  app : App;
  trace : list event
}.

Definition install_app (module_name : string) (s : state) : state * outcome :=
  if decide (module_name ∈ installed s) then (s, Returned)
  else
    let installed1 := {[module_name]} ∪ installed s in
    let trace1 := trace s ++ [EvMark module_name] in
    match import_module module_name (app s) with
    | (a1, Raise e) => (mkState installed1 a1 trace1, Raised e)
    | (a1, Ok app_module) =>
        match init_app app_module with
        | None => (mkState installed1 a1 (trace1 ++ [EvDone module_name]), Returned)
        | Some hook =>
            match hook a1 with
            | (a2, Returned) =>
                (mkState installed1 a2
                   (trace1 ++ [EvHook module_name; EvDone module_name]), Returned)
            | (a2, Raised e) =>
                (mkState installed1 a2 (trace1 ++ [EvHook module_name]), Raised e)
            end
        end
    end.

(** [install_app] for each name of [l] in turn, up to the first call that
    raises: the calls a loop makes, once the names it visits are known. *)
Fixpoint install_apps (l : list string) (s : state) : state * outcome :=
  match l with
  | [] => (s, Returned)
  | module_name :: l' =>
      match install_app module_name s with
      | (s1, Returned) => install_apps l' s1
      | (s1, Raised e) => (s1, Raised e)
      end
  end.

(** [installed = set()] (line 251). *)
Definition init_state (a : App) : state := mkState ∅ a [].

(** Number of times the hook of [m] was entered. *)
Definition hook_calls (m : string) (tr : list event) : nat :=
  length (filter (λ e, e = EvHook m) tr).

(** [m] loads and exposes a hook that returns normally on the loaded state. *)
Definition hook_succeeds (m : string) (a : App) : Prop :=
  ∃ a1 md hook a2,
    import_module m a = (a1, Ok md) ∧ init_app md = Some hook ∧
    hook a1 = (a2, Returned).

(** *** Properties of [install_app] *)

Lemma install_app_member (m : string) (s : state) :
  m ∈ installed s → install_app m s = (s, Returned).
Proof.
  intros Hin. unfold install_app. by rewrite decide_True.
Qed.

Lemma hook_calls_app (m : string) (t1 t2 : list event) :
  hook_calls m (t1 ++ t2) = hook_calls m t1 + hook_calls m t2.
Proof. unfold hook_calls. by rewrite filter_app, length_app. Qed.

Lemma hook_calls_mark (m x : string) : hook_calls m [EvMark x] = 0.
Proof. unfold hook_calls. rewrite filter_cons_False; [done | congruence]. Qed.

Lemma hook_calls_done (m x : string) : hook_calls m [EvDone x] = 0.
Proof. unfold hook_calls. rewrite filter_cons_False; [done | congruence]. Qed.

Lemma hook_calls_hook (m x : string) :
  hook_calls m [EvHook x] = if decide (x = m) then 1 else 0.
Proof.
  unfold hook_calls. case_decide as Hx.
  - subst. by rewrite filter_cons_True.
  - rewrite filter_cons_False; [done | congruence].
Qed.

(** What one call does to the set and to the trace, whatever its outcome. *)
Lemma install_app_effect (m : string) (s s1 : state) (o : outcome) :
  install_app m s = (s1, o) →
  ∃ t, trace s1 = trace s ++ t ∧
       Forall (λ e, ev_module e = m) t ∧
       installed s ⊆ installed s1 ∧
       installed s1 ⊆ {[m]} ∪ installed s ∧
       (o = Returned → m ∈ installed s1 ∧ (m ∉ installed s → EvDone m ∈ t)).
Proof.
  unfold install_app. case_decide as Hin.
  - intros [= <- <-]. exists []. rewrite app_nil_r.
    repeat split; [constructor | set_solver.. ].
  - destruct (import_module m (app s)) as [a1 [md | e]].
    + destruct (init_app md) as [hook |].
      * destruct (hook a1) as [a2 [| e]]; intros [= <- <-]; simpl.
        -- exists [EvMark m; EvHook m; EvDone m]. rewrite <- app_assoc.
           repeat split; [by repeat constructor | set_solver.. ].
        -- exists [EvMark m; EvHook m]. rewrite <- app_assoc.
           repeat split; [by repeat constructor | set_solver | set_solver | done | done].
      * intros [= <- <-]; simpl. exists [EvMark m; EvDone m]. rewrite <- app_assoc.
        repeat split; [by repeat constructor | set_solver.. ].
    + intros [= <- <-]; simpl. exists [EvMark m].
      repeat split; [by repeat constructor | set_solver | set_solver | done | done].
Qed.

(** A first installation whose hook returns enters the hook once. *)
Lemma install_app_fresh_hook (m : string) (s s1 : state) :
  m ∉ installed s → hook_succeeds m (app s) →
  install_app m s = (s1, Returned) →
  hook_calls m (trace s1) = S (hook_calls m (trace s)).
Proof.
  intros Hnot (a1 & md & hook & a2 & Himp & Hinit & Hhook).
  unfold install_app. rewrite decide_False by done.
  rewrite Himp, Hinit, Hhook. intros [= <-]; simpl.
  rewrite !hook_calls_app, hook_calls_mark.
  change [EvHook m; EvDone m] with ([EvHook m] ++ [EvDone m]).
  rewrite hook_calls_app, hook_calls_hook, hook_calls_done.
  rewrite decide_True by done. lia.
Qed.

(** The hook of a module that is not in the set has never been entered, and
    no hook is entered twice: an invariant of every call. *)
Definition hooks_once (s : state) : Prop :=
  ∀ m, (hook_calls m (trace s) ≤ 1)%nat ∧ (m ∉ installed s → hook_calls m (trace s) = 0).

Lemma install_app_hooks_once (x : string) (s s1 : state) (o : outcome) :
  hooks_once s → install_app x s = (s1, o) → hooks_once s1.
Proof.
  intros Hinv. unfold install_app. case_decide as Hin.
  { by intros [= <- <-]. }
  assert (Hx : hook_calls x (trace s) = 0) by by apply Hinv.
  assert (Hother : ∀ m t, m ≠ x → Forall (λ e, ev_module e = x) t →
            hook_calls m (trace s ++ t) = hook_calls m (trace s)).
  { intros m t Hne Ht. rewrite hook_calls_app.
    assert (hook_calls m t = 0) as ->; [| lia].
    unfold hook_calls. induction Ht as [| e t He _ IH]; [done |].
    rewrite filter_cons_False; [done |]. intros ->. simpl in He. congruence. }
  intros Hrun m. destruct (decide (m = x)) as [-> | Hne].
  - destruct (import_module x (app s)) as [a1 [md | e]];
      [destruct (init_app md) as [hook |]; [destruct (hook a1) as [a2 [| e]] |] |];
      injection Hrun as <- <-; simpl;
      rewrite ?hook_calls_app, Hx; cbn [hook_calls filter length];
      unfold hook_calls; simpl;
      repeat (first [rewrite filter_cons_True by done
                    | rewrite filter_cons_False by congruence]);
      rewrite ?filter_nil; simpl; split; try lia; set_solver.
  - destruct (Hinv m) as [Hle Hzero].
    destruct (import_module x (app s)) as [a1 [md | e]];
      [destruct (init_app md) as [hook |]; [destruct (hook a1) as [a2 [| e]] |] |];
      injection Hrun as <- <-; simpl; rewrite <- ?app_assoc;
      (rewrite Hother; [| done | by repeat constructor]);
      (split; [done | intros Hm; apply Hzero; set_solver]).
Qed.

Lemma install_apps_hooks_once (l : list string) (s s1 : state) (o : outcome) :
  hooks_once s → install_apps l s = (s1, o) → hooks_once s1.
Proof.
  revert s. induction l as [| x l IH]; intros s Hinv; simpl.
  - by intros [= <- <-].
  - destruct (install_app x s) as [s0 [| e]] eqn:Hx.
    + apply IH. eapply install_app_hooks_once; eauto.
    + intros [= <- <-]. eapply install_app_hooks_once; eauto.
Qed.

(** C1.  Installation is idempotent.  A call for a name that is already in
    the installed set returns at once and changes nothing.  Hence, after a
    first call that returned, a second call for the same name returns the
    same state: the installed set keeps its size, and when the name was
    fresh and its module has a hook that returns, that hook has been
    entered exactly once more than before the two calls.  The application
    shows it: the first call leaves the application that the hook made of
    the loaded one, the hook applied once, and the second call leaves that
    application as it is. *)
Theorem install_app_idempotent (m : string) (s : state) :
  (m ∈ installed s → install_app m s = (s, Returned)) ∧
  (∀ s1, install_app m s = (s1, Returned) →
     m ∈ installed s1 ∧
     install_app m s1 = (s1, Returned) ∧
     size (installed (install_app m s1).1) = size (installed s1) ∧
     (m ∉ installed s → hook_succeeds m (app s) →
      hook_calls m (trace (install_app m s1).1) = S (hook_calls m (trace s)))) ∧
  (∀ a1 app_module hook a2,
     m ∉ installed s →
     import_module m (app s) = (a1, Ok app_module) →
     init_app app_module = Some hook →
     hook a1 = (a2, Returned) →
     install_app m s =
       (mkState ({[m]} ∪ installed s) a2
          (trace s ++ [EvMark m; EvHook m; EvDone m]), Returned) ∧
     app (install_app m (install_app m s).1).1 = a2) ∧
  (∀ a1 app_module,
     m ∉ installed s →
     import_module m (app s) = (a1, Ok app_module) →
     init_app app_module = None →
     install_app m s =
       (mkState ({[m]} ∪ installed s) a1 (trace s ++ [EvMark m; EvDone m]), Returned)).
Proof.
  split; [apply install_app_member |]. split; [| split].
  - intros s1 Hrun.
    destruct (install_app_effect _ _ _ _ Hrun) as (t & _ & _ & _ & _ & Hret).
    destruct (Hret eq_refl) as [Hin _].
    rewrite (install_app_member m s1 Hin). simpl.
    repeat split; [done |].
    intros Hnot Hhook. by apply install_app_fresh_hook.
  - intros a1 app_module hook a2 Hnot Himp Hinit Hhook.
    assert (Hrun : install_app m s =
              (mkState ({[m]} ∪ installed s) a2
                 (trace s ++ [EvMark m; EvHook m; EvDone m]), Returned)).
    { unfold install_app. rewrite decide_False by done.
      rewrite Himp, Hinit, Hhook. by rewrite <- app_assoc. }
    split; [exact Hrun |]. rewrite Hrun. cbn [fst].
    rewrite install_app_member; [done |]. simpl. set_solver.
  - intros a1 app_module Hnot Himp Hinit.
    unfold install_app. rewrite decide_False by done.
    rewrite Himp, Hinit. by rewrite <- app_assoc.
Qed.

(** *** Order of installation *)

Lemma install_apps_app (l l' : list string) (s : state) :
  install_apps (l ++ l') s =
  match install_apps l s with
  | (s1, Returned) => install_apps l' s1
  | (s1, Raised e) => (s1, Raised e)
  end.
Proof.
  revert s. induction l as [| x l IH]; intros s; simpl; [done |].
  destruct (install_app x s) as [s1 [| e]]; [apply IH | done].
Qed.

(** Every event in the trace is about a module of the set. *)
Definition trace_closed (s : state) : Prop :=
  ∀ e, e ∈ trace s → ev_module e ∈ installed s.

(** Every module of the set has returned from its installation. *)
Definition done_logged (s : state) : Prop :=
  ∀ x, x ∈ installed s → EvDone x ∈ trace s.

Lemma install_app_trace_closed (x : string) (s s1 : state) (o : outcome) :
  trace_closed s → install_app x s = (s1, o) → trace_closed s1.
Proof.
  intros Hc Hrun e.
  destruct (install_app_effect _ _ _ _ Hrun) as (t & -> & Ht & Hsub & Hsup & Hret).
  rewrite elem_of_app. intros [He | He].
  - apply Hsub. by apply Hc.
  - rewrite Forall_forall in Ht. rewrite (Ht _ He).
    unfold install_app in Hrun. case_decide as Hin.
    + injection Hrun as <- <-. done.
    + destruct (import_module x (app s)) as [a1 [md | e']];
        [destruct (init_app md) as [hook |]; [destruct (hook a1) as [a2 [| e']] |] |];
        injection Hrun as <- <-; simpl; set_solver.
Qed.

Lemma install_app_done_logged (x : string) (s s1 : state) :
  done_logged s → install_app x s = (s1, Returned) → done_logged s1.
Proof.
  intros Hd Hrun y Hy.
  destruct (install_app_effect _ _ _ _ Hrun) as (t & -> & _ & _ & Hsup & Hret).
  destruct (Hret eq_refl) as [_ Hdone]. rewrite elem_of_app.
  destruct (decide (y ∈ installed s)) as [Hin | Hnin]; [left; by apply Hd |].
  assert (y = x) as -> by set_solver. right. by apply Hdone.
Qed.

Lemma install_apps_trace_ext (l : list string) (s s' : state) (o : outcome) :
  install_apps l s = (s', o) → ∃ t, trace s' = trace s ++ t.
Proof.
  revert s. induction l as [| x l IH]; intros s; simpl.
  - intros [= <- <-]. exists []. by rewrite app_nil_r.
  - destruct (install_app x s) as [s1 [| e]] eqn:Hx;
      destruct (install_app_effect _ _ _ _ Hx) as (t & Ht & _).
    + intros Hrun. destruct (IH _ Hrun) as [t' Ht'].
      exists (t ++ t'). by rewrite Ht', Ht, app_assoc.
    + intros [= <- <-]. by exists t.
Qed.

(** An element that is not in [l] and splits [l ++ k] lies beyond [l]. *)
Lemma split_beyond {A : Type} (l k t1 t2 : list A) (e : A) :
  l ++ k = t1 ++ e :: t2 → e ∉ l → ∃ t, t1 = l ++ t.
Proof.
  revert t1. induction l as [| x l IH]; intros t1 Heq Hnot.
  - by exists t1.
  - destruct t1 as [| y t1]; simpl in Heq.
    + injection Heq as -> _. set_solver.
    + injection Heq as -> Heq. destruct (IH t1 Heq) as [t ->]; [set_solver |].
      by exists t.
Qed.

Lemma install_apps_order (l1 : list string) :
  ∀ (s s' : state) (o : outcome) (m : string) (l2 : list string),
    install_apps (l1 ++ m :: l2) s = (s', o) →
    trace_closed s → done_logged s → m ∉ l1 → m ∉ installed s →
    ∀ t1 e t2, trace s' = t1 ++ e :: t2 → ev_module e = m →
    ∀ m', m' ∈ l1 ∨ m' ∈ installed s → EvDone m' ∈ t1.
Proof.
  induction l1 as [| x l1 IH];
    intros s s' o m l2 Hrun Hc Hd Hm1 Hm t1 e t2 Htr He m' Hm'.
  - destruct Hm' as [Hm' | Hm']; [set_solver |].
    destruct (install_apps_trace_ext _ _ _ _ Hrun) as [t Ht].
    rewrite Ht in Htr.
    destruct (split_beyond _ _ _ _ _ Htr) as [k ->].
    + intros Hin. apply Hc in Hin. congruence.
    + rewrite elem_of_app. left. by apply Hd.
  - simpl in Hrun. destruct (install_app x s) as [s1 [| ex]] eqn:Hx.
    + destruct (install_app_effect _ _ _ _ Hx) as (t & Ht & _ & Hsub & Hsup & Hret).
      destruct (Hret eq_refl) as [Hxin _].
      eapply (IH s1 s' o m l2 Hrun); eauto.
      * eapply install_app_trace_closed; eauto.
      * eapply install_app_done_logged; eauto.
      * set_solver.
      * set_solver.
      * destruct Hm' as [Hm' | Hm']; [| right; set_solver].
        apply elem_of_cons in Hm' as [-> | Hm']; [by right | by left].
    + injection Hrun as <- <-.
      assert (Hin : e ∈ trace s1) by (rewrite Htr; set_solver).
      apply (install_app_trace_closed _ _ _ _ Hc Hx) in Hin.
      destruct (install_app_effect _ _ _ _ Hx) as (t & _ & _ & _ & Hsup & _).
      set_solver.
Qed.

(** *** Marking, failure and the installed set *)

Lemma install_app_installed (m : string) (s : state) :
  installed (install_app m s).1 = {[m]} ∪ installed s.
Proof.
  unfold install_app. case_decide as Hin; simpl; [set_solver |].
  destruct (import_module m (app s)) as [a1 [md | e]]; [| done].
  destruct (init_app md) as [hook |]; [| done].
  by destruct (hook a1) as [a2 [| e]].
Qed.

(** X1.  However a call of [install_app] ends (it returns, the import
    fails, the hook raises), the name is in the installed set afterwards
    and a further call for it returns at once and changes nothing: a failed
    installation is not tried again. *)
Theorem install_app_settles (m : string) (s : state) :
  m ∈ installed (install_app m s).1 ∧
  install_app m (install_app m s).1 = ((install_app m s).1, Returned).
Proof.
  assert (Hin : m ∈ installed (install_app m s).1).
  { rewrite install_app_installed. set_solver. }
  split; [done | by apply install_app_member].
Qed.

Lemma install_apps_installed (l : list string) (s : state) :
  installed (install_apps l s).1 ⊆ list_to_set l ∪ installed s ∧
  ((install_apps l s).2 = Returned →
   installed (install_apps l s).1 = list_to_set l ∪ installed s).
Proof.
  revert s. induction l as [| x l IH]; intros s; simpl.
  - split; [set_solver | intros _; set_solver].
  - pose proof (install_app_installed x s) as Hx.
    destruct (install_app x s) as [s1 [| e]]; simpl in Hx.
    + destruct (IH s1) as [Hsub Heq]. rewrite Hx in Hsub. split; [set_solver |].
      intros Hret. rewrite (Heq Hret), Hx. set_solver.
    + simpl. split; [rewrite Hx; set_solver | done].
Qed.

Section Phase.

(** The list objects of the process and what each holds in a given state of
    it: a hook can change a list in place. *)
Variable ListRef : Type.
Variable list_content : ListRef -> App -> list string.

(** [app.config.get("CORE_APPS", [])] and
    [app.config.get("INSTALLED_APPS", [])]: the list object that the
    configuration holds, [None] when the key is missing (the loop then goes
    over a fresh empty list). *)
Variable core_apps : App -> option ListRef.
Variable installed_apps : App -> option ListRef.

(** What the list holds now. *)
Definition current (r : option ListRef) (a : App) : list string :=
  match r with
  | Some l => list_content l a
  | None => []
  end.

(** [for module_name in r: install_app(module_name)].  The iterator keeps
    the list object and an index [i], and reads the list as it is when the
    next name is asked for; it stops when the index is past the end.
    [fuel] bounds the number of iterations: the outcome is [None] when the
    loop is still going after that many. *)
Fixpoint install_loop (fuel : nat) (r : option ListRef) (i : nat) (s : state)
  : state * option outcome :=
  match fuel with
  | O => (s, None)
  | S fuel' =>
      match current r (app s) !! i with
      | None => (s, Some Returned)
      | Some module_name =>
          match install_app module_name s with
          | (s1, Returned) => install_loop fuel' r (S i) s1
          | (s1, Raised e) => (s1, Some (Raised e))
          end
      end
  end.

(** Lines 251-265 of [get_app]: [installed = set()], then the loop over
    CORE_APPS, then the loop over INSTALLED_APPS (read after the first loop). *)
Definition install_phase (fuel : nat) (a : App) : state * option outcome :=
  match install_loop fuel (core_apps a) 0 (init_state a) with
  | (s1, Some Returned) => install_loop fuel (installed_apps (app s1)) 0 s1
  | (s1, o) => (s1, o)
  end.

(** No installation changes what a module list holds. *)
Definition lists_stable : Prop :=
  ∀ r m s, current r (app (install_app m s).1) = current r (app s).

(** The core list as the first loop finds it, the extension list as the
    second loop finds it (empty when the first loop does not return), and
    the two in a row. *)
Definition core_list (a : App) : list string := current (core_apps a) a.

Definition extension_list (fuel : nat) (a : App) : list string :=
  match install_loop fuel (core_apps a) 0 (init_state a) with
  | (s1, Some Returned) => current (installed_apps (app s1)) (app s1)
  | _ => []
  end.

Definition combined_apps (fuel : nat) (a : App) : list string :=
  core_list a ++ extension_list fuel a.

Lemma install_loop_hooks_once (fuel : nat) (r : option ListRef) :
  ∀ i s, hooks_once s → hooks_once (install_loop fuel r i s).1.
Proof.
  induction fuel as [| fuel IH]; intros i s Hinv; [done |]. simpl.
  destruct (current r (app s) !! i) as [x |]; [| done].
  destruct (install_app x s) as [s1 [| e]] eqn:Hx.
  - apply IH. eapply install_app_hooks_once; eauto.
  - simpl. eapply install_app_hooks_once; eauto.
Qed.

(** When the lists are stable, a loop that ends has made the calls for the
    names from its index on, in the order of the list. *)
Lemma install_loop_stable (fuel : nat) (r : option ListRef) :
  lists_stable →
  ∀ i s s' o,
    install_loop fuel r i s = (s', Some o) →
    install_apps (drop i (current r (app s))) s = (s', o).
Proof.
  intros Hstable. induction fuel as [| fuel IH]; intros i s s' o; [done |]. simpl.
  destruct (current r (app s) !! i) as [x |] eqn:Hi.
  - rewrite (drop_S _ _ _ Hi). simpl.
    pose proof (Hstable r x s) as Hsame.
    destruct (install_app x s) as [s1 [| e]]; simpl in Hsame.
    + intros Hrun. apply IH in Hrun. by rewrite Hsame in Hrun.
    + by intros [= <- <-].
  - intros [= <- <-]. apply lookup_ge_None in Hi. by rewrite drop_ge.
Qed.

(** And with fuel beyond the length of the list the loop does end. *)
Lemma install_loop_enough (fuel : nat) (r : option ListRef) :
  lists_stable →
  ∀ i s,
    length (current r (app s)) - i < fuel →
    ∃ s' o, install_loop fuel r i s = (s', Some o).
Proof.
  intros Hstable. induction fuel as [| fuel IH]; intros i s Hlen; simpl; [lia |].
  destruct (current r (app s) !! i) as [x |] eqn:Hi; [| eauto].
  pose proof (Hstable r x s) as Hsame. apply lookup_lt_Some in Hi.
  destruct (install_app x s) as [s1 [| e]]; simpl in Hsame; [| eauto].
  apply IH. rewrite Hsame. lia.
Qed.

Lemma install_phase_stable (fuel : nat) (a : App) (s' : state) (o : outcome) :
  lists_stable →
  install_phase fuel a = (s', Some o) →
  install_apps (combined_apps fuel a) (init_state a) = (s', o).
Proof.
  intros Hstable. unfold install_phase, combined_apps, extension_list.
  rewrite install_apps_app.
  destruct (install_loop fuel (core_apps a) 0 (init_state a)) as [s1 [o1 |]] eqn:Hcore;
    [| done].
  apply (install_loop_stable _ _ Hstable) in Hcore. rewrite drop_0 in Hcore.
  change (install_apps (core_list a) (init_state a) = (s1, o1)) in Hcore.
  rewrite Hcore.
  destruct o1 as [| e]; [| by intros [= <- <-]].
  intros Hext. apply (install_loop_stable _ _ Hstable) in Hext.
  by rewrite drop_0 in Hext.
Qed.

(** With stable lists and fuel beyond their lengths the two loops end. *)
Lemma install_phase_ends (fuel : nat) (a : App) :
  lists_stable →
  length (core_list a) < fuel → length (extension_list fuel a) < fuel →
  ∃ s' o, install_phase fuel a = (s', Some o).
Proof.
  intros Hstable Hcore Hext. unfold install_phase.
  destruct (install_loop_enough fuel (core_apps a) Hstable 0 (init_state a))
    as (s1 & o1 & Hrun1); [simpl; fold (core_list a); lia |].
  rewrite Hrun1. destruct o1 as [| e]; [| eauto].
  apply (install_loop_enough fuel _ Hstable). rewrite Nat.sub_0_r.
  unfold extension_list in Hext. by rewrite Hrun1 in Hext.
Qed.


(** X2.  The loop is fail-fast: when it raises, the exception comes from
    the installation of the module [m] that the iterator had reached, every
    module visited before [m] has been gone through, and nothing is visited
    after [m]: the installed set is the one the loop started with, the
    modules visited before [m], and [m] itself. *)
Theorem install_loop_raise_at (fuel : nat) (r : option ListRef) (i : nat)
    (s s' : state) (e : exn) :
  install_loop fuel r i s = (s', Some (Raised e)) →
  ∃ visited m s1,
    install_apps visited s = (s1, Returned) ∧
    current r (app s1) !! (i + length visited) = Some m ∧
    install_app m s1 = (s', Raised e) ∧
    installed s' = {[m]} ∪ list_to_set visited ∪ installed s.
Proof.
  revert i s. induction fuel as [| fuel IH]; intros i s; [done |]. simpl.
  destruct (current r (app s) !! i) as [x |] eqn:Hi; [| done].
  pose proof (install_app_installed x s) as Hxi.
  destruct (install_app x s) as [s1 [| ex]] eqn:Hx; simpl in Hxi.
  - intros Hrun. destruct (IH _ _ Hrun) as (visited & m & s2 & H1 & H2 & H3 & H4).
    exists (x :: visited), m, s2. simpl. rewrite Hx.
    split; [done |]. split; [by rewrite Nat.add_succ_r |]. split; [done |].
    rewrite H4, Hxi. set_solver.
  - intros [= <- <-]. exists [], x, s. simpl. rewrite Nat.add_0_r.
    split; [done |]. split; [done |]. split; [done |].
    rewrite Hxi. set_solver.
Qed.

(** X3.  In an assembly run no hook is entered twice, whatever the two
    lists hold (a module named in both, or twice in one), whatever the
    hooks do to them, and at every point of the run. *)
Theorem install_phase_hooks_once (fuel : nat) (a : App) (m : string) :
  (hook_calls m (trace (install_phase fuel a).1) ≤ 1)%nat.
Proof.
  assert (Hinit : hooks_once (init_state a)).
  { intros x. simpl. split; [unfold hook_calls; simpl; lia | done]. }
  assert (Hphase : hooks_once (install_phase fuel a).1).
  { unfold install_phase.
    pose proof (install_loop_hooks_once fuel (core_apps a) 0 _ Hinit) as Hcore.
    destruct (install_loop fuel (core_apps a) 0 (init_state a)) as [s1 [[| e] |]];
      simpl in Hcore; [| done | done].
    by apply install_loop_hooks_once. }
  by destruct (Hphase m).
Qed.


End Phase.
End Install.

Arguments mkState {App} _ _ _.
Arguments installed {App} _.
Arguments app {App} _.
Arguments trace {App} _.
Arguments init_app {App} _.
Arguments Build_PyModule {App} _.
Arguments install_app {App} _ _ _.
Arguments install_apps {App} _ _ _.
Arguments install_loop {App} _ {ListRef} _ _ _ _ _.
Arguments install_phase {App} _ {ListRef} _ _ _ _ _.
Arguments combined_apps {App} _ {ListRef} _ _ _ _ _.
Arguments core_list {App ListRef} _ _ _.
Arguments lists_stable {App} _ {ListRef} _.
Arguments init_state {App} _.
Arguments hook_succeeds {App} _ _ _.

(** A small process: ["core.a"] has a hook that counts its calls,
    ["ext.b"] has none, and nothing else can be loaded. *)
Definition demo_import (name : string) (a : nat) : nat * result (PyModule nat) :=
  if decide (name = "core.a") then
    (a, Ok (Build_PyModule (Some (λ n, (S n, Returned)))))
  else if decide (name = "ext.b") then (a, Ok (Build_PyModule None))
  else (a, Raise (ImportError name)).

(** Two list objects, [true] for CORE_APPS and [false] for INSTALLED_APPS,
    which nothing changes. *)
Definition demo_lists (r : bool) (_ : nat) : list string :=
  if r then ["core.a"] else ["ext.b"; "core.a"].

Definition demo_core (_ : nat) : option bool := Some true.
Definition demo_ext (_ : nat) : option bool := Some false.

Lemma demo_lists_stable : lists_stable demo_import demo_lists.
Proof. intros [[|] |] m s; reflexivity. Qed.

Example install_phase_demo :
  install_phase demo_import demo_lists demo_core demo_ext 4 0 =
    (mkState {[ "core.a"; "ext.b" ]} 1
       [EvMark "core.a"; EvHook "core.a"; EvDone "core.a";
        EvMark "ext.b"; EvDone "ext.b"],
     Some Returned).
Proof. reflexivity. Qed.

(** A process whose application is what the CORE_APPS list holds: the hook
    of ["core.grow"] appends a module to that list, the hook of
    ["core.swap"] puts another list in its place; every module loads, and
    the other modules have no hook.  INSTALLED_APPS holds ["ext.x"]. *)
Definition live_import (name : string) (a : list string)
  : list string * result (PyModule (list string)) :=
  if decide (name = "core.grow") then
    (a, Ok (Build_PyModule (Some (λ l, (l ++ ["core.late"], Returned)))))
  else if decide (name = "core.swap") then
    (a, Ok (Build_PyModule (Some (λ _, (["core.b"; "core.swap"], Returned)))))
  else (a, Ok (Build_PyModule None)).

Definition live_lists (r : bool) (a : list string) : list string :=
  if r then a else ["ext.x"].

Definition live_core (_ : list string) : option bool := Some true.
Definition live_ext (_ : list string) : option bool := Some false.

(** A module that a hook appends to the list being gone through is
    installed by the same loop. *)
Example install_phase_grow :
  install_phase live_import live_lists live_core live_ext 5 ["core.grow"] =
    (mkState {[ "core.grow"; "core.late"; "ext.x" ]} ["core.grow"; "core.late"]
       [EvMark "core.grow"; EvHook "core.grow"; EvDone "core.grow";
        EvMark "core.late"; EvDone "core.late";
        EvMark "ext.x"; EvDone "ext.x"],
     Some Returned).
Proof. reflexivity. Qed.


Lemma install_app_idempotent_witness :
  "core.a" ∈ installed (install_app demo_import "core.a" (init_state 0)).1 ∧
  hook_calls "core.a"
    (trace (install_app demo_import "core.a"
              (install_app demo_import "core.a" (init_state 0)).1).1) = 1 ∧
  app (install_app demo_import "core.a"
         (install_app demo_import "core.a" (init_state 0)).1).1 = 1.
Proof.
  destruct (install_app_idempotent nat demo_import "core.a" (init_state 0))
    as (_ & H & Happ & _).
  destruct (H (install_app demo_import "core.a" (init_state 0)).1)
    as (H1 & _ & _ & H4); [reflexivity |].
  split; [exact H1 |]. split.
  - apply H4.
    + simpl. apply not_elem_of_empty.
    + exists 0, (Build_PyModule (Some (λ n, (S n, Returned)))), (λ n, (S n, Returned)), 1.
      repeat split.
  - refine (proj2 (Happ 0 (Build_PyModule (Some (λ n, (S n, Returned))))
                     (λ n, (S n, Returned)) 1 _ eq_refl eq_refl eq_refl)).
    simpl. apply not_elem_of_empty.
Defined.


(** The same process, except that the module the hook appends does not
    load. *)
Definition failing_import (name : string) (a : list string)
  : list string * result (PyModule (list string)) :=
  if decide (name = "core.late") then (a, Raise (ImportError name))
  else live_import name a.

Lemma install_loop_raise_at_witness :
  ∃ visited m s1,
    install_apps failing_import visited (init_state ["core.grow"; "core.c"])
      = (s1, Returned) ∧
    live_lists true (app s1) !! (0 + length visited) = Some m ∧
    install_app failing_import m s1
      = ((install_loop failing_import live_lists 5 (Some true) 0
            (init_state ["core.grow"; "core.c"])).1,
         Raised (ImportError "core.late")) ∧
    installed (install_loop failing_import live_lists 5 (Some true) 0
                 (init_state ["core.grow"; "core.c"])).1
      = {[m]} ∪ list_to_set visited ∪ installed (init_state ["core.grow"; "core.c"]).
Proof.
  exact (install_loop_raise_at (list string) failing_import bool live_lists 5
           (Some true) 0 (init_state ["core.grow"; "core.c"])
           (install_loop failing_import live_lists 5 (Some true) 0
              (init_state ["core.grow"; "core.c"])).1
           (ImportError "core.late") eq_refl).
Defined.


End Installer.

(** ** Media prefix rewriting ([after_request]) *)

Module MediaPrefix.

(** Text and bytes are both strings here: [encode()] of a setting is taken
    to give its characters as bytes. *)

(** [s.rstrip(c)] for a one-character [c]. *)
Fixpoint rstrip (c : ascii) (s : string) : string :=
  match s with
  | EmptyString => EmptyString
  | String a s' =>
      match rstrip c s' with
      | EmptyString => if Ascii.eqb a c then EmptyString else String a EmptyString
      | String b r => String a (String b r)
      end
  end.

Example rstrip_slashes : rstrip "/" "http://old/media//" = "http://old/media".
Proof. reflexivity. Qed.

(** [data.startswith(old)]. *)
Fixpoint starts_with (old data : string) : bool :=
  match old, data with
  | EmptyString, _ => true
  | String a old', String b data' => Ascii.eqb a b && starts_with old' data'
  | String _ _, EmptyString => false
  end.

(** [data.replace(old, new)] for a non-empty [old]: the occurrences are
    taken from left to right and do not overlap; [skip] is the number of
    bytes of the occurrence just replaced that are still to be passed. *)
Fixpoint replace_from (old new data : string) (skip : nat) : string :=
  match data with
  | EmptyString => EmptyString
  | String c rest =>
      match skip with
      | S k => replace_from old new rest k
      | O =>
          if starts_with old (String c rest)
          then new +:+ replace_from old new rest (String.length old - 1)
          else String c (replace_from old new rest 0)
      end
  end.

(** [new] after every byte of [data]. *)
Fixpoint insert_after_each (new data : string) : string :=
  match data with
  | EmptyString => EmptyString
  | String c rest => String c (new +:+ insert_after_each new rest)
  end.

(** [data.replace(old, new)]; an empty [old] matches before every byte and
    at the end. *)
Definition bytes_replace (old new data : string) : string :=
  match old with
  | EmptyString => new +:+ insert_after_each new data
  | String _ _ => replace_from old new data 0
  end.

Example bytes_replace_all :
  bytes_replace "/old" "/new" "<a href=/old/1><img src=/old/2>"
  = "<a href=/new/1><img src=/new/2>".
Proof. reflexivity. Qed.

Example bytes_replace_no_overlap : bytes_replace "aa" "b" "aaa" = "ba".
Proof. reflexivity. Qed.

Example bytes_replace_empty : bytes_replace "" "X" "ab" = "XaXbX".
Proof. reflexivity. Qed.

(** [for prefix in v]: the items of a list, the characters of a string, the
    keys of a dictionary; nothing else can be iterated. *)
Definition iterate (v : pyval) : result (list pyval) :=
  match v with
  | PyList items => Ok items
  | PyStr s => Ok (map (λ c, PyStr (String c EmptyString)) (list_ascii_of_string s))
  | PyDict items => Ok (map (λ kv, PyStr kv.1) items)
  | _ => Raise (TypeError "object is not iterable")
  end.

(** [v.rstrip("/").encode()]: only a string has the method. *)
Definition stripped (v : pyval) : result string :=
  match v with
  | PyStr s => Ok (rstrip "/" s)
  | _ => Raise (AttributeError "rstrip")
  end.

(** The loop of lines 246-247 on [response.data]. *)
Fixpoint fix_prefixes (prefixes : list pyval) (current_prefix data : string)
  : result string :=
  match prefixes with
  | [] => Ok data
  | prefix :: rest =>
      match stripped prefix with
      | Raise e => Raise e
      | Ok old => fix_prefixes rest current_prefix (bytes_replace old current_prefix data)
      end
  end.

(** [after_request(response)], on the body of the response. *)
Definition after_request (app_config : gmap string pyval) (data : string)
  : result string :=
  match app_config !! "MEDIA_PREFIXES_TO_FIX" with
  | None => Raise (KeyError "MEDIA_PREFIXES_TO_FIX")
  | Some prefixes_to_fix =>
      if truthy prefixes_to_fix then
        match app_config !! "MEDIA_PREFIX" with
        | None => Raise (KeyError "MEDIA_PREFIX")
        | Some media_prefix =>
            if truthy media_prefix then
              match stripped media_prefix with
              | Raise e => Raise e
              | Ok current_prefix =>
                  match iterate prefixes_to_fix with
                  | Raise e => Raise e
                  | Ok prefixes => fix_prefixes prefixes current_prefix data
                  end
              end
            else Ok data
        end
      else Ok data
  end.

(** [old] occurs in [data]. *)
Definition occurs (old data : string) : Prop :=
  ∃ before after, data = before +:+ old +:+ after.

(** *** Stripping and matching *)

Lemma rstrip_trailing (c : ascii) (s : string) :
  rstrip c (s +:+ String c EmptyString) = rstrip c s.
Proof.
  induction s as [| a s IH]; simpl.
  - by rewrite Ascii.eqb_refl.
  - by rewrite IH.
Qed.

Lemma starts_with_app (old rest : string) : starts_with old (old +:+ rest) = true.
Proof.
  induction old as [| a old IH]; simpl; [by destruct rest |].
  by rewrite Ascii.eqb_refl, IH.
Qed.

Lemma starts_with_inv (old : string) :
  ∀ data, starts_with old data = true → ∃ rest, data = old +:+ rest.
Proof.
  induction old as [| a old IH]; intros data; simpl.
  - intros _. by exists data.
  - destruct data as [| b data]; [done |].
    intros [Hab Hrest]%andb_prop. apply Ascii.eqb_eq in Hab as ->.
    destruct (IH _ Hrest) as [rest ->]. by exists rest.
Qed.

Lemma replace_from_skip (old new : string) (passed rest : string) :
  replace_from old new (passed +:+ rest) (String.length passed)
  = replace_from old new rest 0.
Proof.
  induction passed as [| a passed IH]; simpl; [by destruct rest | exact IH].
Qed.

Lemma bytes_replace_head (old new rest : string) :
  old ≠ "" →
  bytes_replace old new (old +:+ rest) = new +:+ bytes_replace old new rest.
Proof.
  destruct old as [| a old]; [done |]. intros _.
  unfold bytes_replace.
  change (String a old +:+ rest) with (String a (old +:+ rest)).
  cbn [replace_from].
  change (String a (old +:+ rest)) with (String a old +:+ rest).
  rewrite starts_with_app. cbn [String.length].
  replace (S (String.length old) - 1)%nat with (String.length old) by lia.
  by rewrite replace_from_skip.
Qed.

Lemma occurs_empty (data : string) : occurs "" data.
Proof. by exists "", data. Qed.

Lemma bytes_replace_absent (old new data : string) :
  ¬ occurs old data → bytes_replace old new data = data.
Proof.
  destruct old as [| a old]; [intros H; destruct H; apply occurs_empty |].
  unfold bytes_replace. induction data as [| c data IH]; intros Hnot; [done |].
  cbn [replace_from].
  destruct (starts_with (String a old) (String c data)) eqn:Hstart.
  - destruct Hnot. apply starts_with_inv in Hstart as [rest ->]. by exists "", rest.
  - rewrite IH; [done |]. intros (before & after & ->).
    apply Hnot. by exists (String c before), after.
Qed.

Lemma fix_prefixes_absent (prefixes : list pyval) (current_prefix data : string) :
  (∀ v, v ∈ prefixes → ∃ p, v = PyStr p ∧ ¬ occurs (rstrip "/" p) data) →
  fix_prefixes prefixes current_prefix data = Ok data.
Proof.
  induction prefixes as [| v prefixes IH]; intros Hall; [done |].
  destruct (Hall v) as (p & -> & Hnot); [by left |]. simpl.
  rewrite (bytes_replace_absent _ _ _ Hnot). apply IH.
  intros w Hw. apply Hall. by right.
Qed.

(** X25.  The rewriting is switched by the two settings, which are read
    with [config[...]]: a missing [MEDIA_PREFIXES_TO_FIX] raises
    [KeyError]; when it is empty the body is returned as it is and
    [MEDIA_PREFIX] is not looked at; when it is not empty a missing
    [MEDIA_PREFIX] raises [KeyError] and an empty one leaves the body as
    it is. *)
Theorem after_request_settings (app_config : gmap string pyval) (data : string) :
  (app_config !! "MEDIA_PREFIXES_TO_FIX" = None →
   after_request app_config data = Raise (KeyError "MEDIA_PREFIXES_TO_FIX")) ∧
  (∀ prefixes, app_config !! "MEDIA_PREFIXES_TO_FIX" = Some prefixes →
     (truthy prefixes = false → after_request app_config data = Ok data) ∧
     (truthy prefixes = true →
      (app_config !! "MEDIA_PREFIX" = None →
       after_request app_config data = Raise (KeyError "MEDIA_PREFIX")) ∧
      (∀ media_prefix, app_config !! "MEDIA_PREFIX" = Some media_prefix →
         truthy media_prefix = false → after_request app_config data = Ok data))).
Proof.
  unfold after_request. split; [by intros -> |].
  intros prefixes ->. split; [by intros -> |]. intros ->.
  split; [by intros -> |]. by intros media_prefix -> ->.
Qed.

(** X26.  A body in which none of the legacy prefixes occurs comes back
    unchanged. *)
Theorem after_request_unchanged (app_config : gmap string pyval)
    (prefixes : list pyval) (media_prefix data : string) :
  app_config !! "MEDIA_PREFIXES_TO_FIX" = Some (PyList prefixes) →
  app_config !! "MEDIA_PREFIX" = Some (PyStr media_prefix) →
  (∀ v, v ∈ prefixes → ∃ p, v = PyStr p ∧ ¬ occurs (rstrip "/" p) data) →
  after_request app_config data = Ok data.
Proof.
  intros Hfix Hcur Hall. unfold after_request. rewrite Hfix, Hcur.
  destruct (truthy (PyList prefixes)); [| done].
  destruct (truthy (PyStr media_prefix)); [| done].
  simpl. by apply fix_prefixes_absent.
Qed.

(** X27.  With one legacy prefix, a body that starts with it (less its
    trailing slashes) gets the current prefix (less its trailing slashes)
    in its place, and the rest of the body is rewritten in the same way;
    when the legacy prefix does not occur in the rest, the rest is kept. *)
Theorem after_request_rewrites (app_config : gmap string pyval)
    (legacy media_prefix rest : string) :
  app_config !! "MEDIA_PREFIXES_TO_FIX" = Some (PyList [PyStr legacy]) →
  app_config !! "MEDIA_PREFIX" = Some (PyStr media_prefix) →
  media_prefix ≠ "" → rstrip "/" legacy ≠ "" →
  after_request app_config (rstrip "/" legacy +:+ rest) =
    Ok (rstrip "/" media_prefix +:+
        bytes_replace (rstrip "/" legacy) (rstrip "/" media_prefix) rest) ∧
  (¬ occurs (rstrip "/" legacy) rest →
   after_request app_config (rstrip "/" legacy +:+ rest) =
     Ok (rstrip "/" media_prefix +:+ rest)).
Proof.
  intros Hfix Hcur Hne Hold.
  assert (Hrun : after_request app_config (rstrip "/" legacy +:+ rest) =
            Ok (rstrip "/" media_prefix +:+
                bytes_replace (rstrip "/" legacy) (rstrip "/" media_prefix) rest)).
  { unfold after_request. rewrite Hfix, Hcur. simpl.
    destruct (String.eqb_spec media_prefix "") as [-> | _]; [done |]. simpl.
    by rewrite bytes_replace_head. }
  split; [exact Hrun |]. intros Hnot. by rewrite Hrun, bytes_replace_absent.
Qed.

(** X28.  A trailing slash on [MEDIA_PREFIX] changes nothing. *)
Theorem after_request_trailing_slash (app_config : gmap string pyval)
    (media_prefix data : string) :
  media_prefix ≠ "" →
  after_request (<["MEDIA_PREFIX" := PyStr (media_prefix +:+ "/")]> app_config) data =
  after_request (<["MEDIA_PREFIX" := PyStr media_prefix]> app_config) data.
Proof.
  intros Hne. unfold after_request.
  rewrite !lookup_insert_eq. repeat (rewrite lookup_insert_ne by done).
  destruct (app_config !! "MEDIA_PREFIXES_TO_FIX") as [prefixes |]; [| done].
  destruct (truthy prefixes); [| done].
  assert (truthy (PyStr media_prefix) = true) as ->.
  { simpl. by destruct (String.eqb_spec media_prefix ""). }
  assert (truthy (PyStr (media_prefix +:+ "/")) = true) as ->.
  { simpl. destruct media_prefix; [done | reflexivity]. }
  cbn [stripped]. by rewrite rstrip_trailing.
Qed.

(** X29.  A legacy prefix made of slashes only is stripped to nothing, and
    replacing nothing puts the current prefix before every byte of the
    body and at its end. *)
Theorem after_request_empty_legacy (app_config : gmap string pyval)
    (legacy media_prefix data : string) :
  app_config !! "MEDIA_PREFIXES_TO_FIX" = Some (PyList [PyStr legacy]) →
  app_config !! "MEDIA_PREFIX" = Some (PyStr media_prefix) →
  media_prefix ≠ "" → rstrip "/" legacy = "" →
  after_request app_config data =
    Ok (rstrip "/" media_prefix +:+
        insert_after_each (rstrip "/" media_prefix) data).
Proof.
  intros Hfix Hcur Hne Hold. unfold after_request. rewrite Hfix, Hcur. simpl.
  destruct (String.eqb_spec media_prefix "") as [-> | _]; [done |]. simpl.
  by rewrite Hold.
Qed.

Definition demo_settings : gmap string pyval :=
  {[ "MEDIA_PREFIXES_TO_FIX" := PyList [PyStr "http://old/media/"];
     "MEDIA_PREFIX" := PyStr "https://cdn/media/" ]}.

Lemma not_occurs_shorter (old data : string) :
  (String.length data < String.length old)%nat → ¬ occurs old data.
Proof.
  intros Hlen (before & after & ->). revert Hlen.
  assert (Happ : ∀ a b, String.length (a +:+ b) = (String.length a + String.length b)%nat).
  { intros a b. induction a as [| c a IH]; simpl; [done | by rewrite IH]. }
  rewrite !Happ. lia.
Qed.

Lemma after_request_settings_witness :
  after_request ∅ "body" = Raise (KeyError "MEDIA_PREFIXES_TO_FIX") ∧
  after_request {[ "MEDIA_PREFIXES_TO_FIX" := PyList [] ]} "body" = Ok "body" ∧
  after_request {[ "MEDIA_PREFIXES_TO_FIX" := PyList [PyStr "/old"] ]} "body"
    = Raise (KeyError "MEDIA_PREFIX").
Proof.
  split; [| split].
  - exact (proj1 (after_request_settings ∅ "body") eq_refl).
  - exact (proj1 (proj2 (after_request_settings
                           {[ "MEDIA_PREFIXES_TO_FIX" := PyList [] ]} "body")
                        (PyList []) eq_refl) eq_refl).
  - exact (proj1 (proj2 (proj2 (after_request_settings
                           {[ "MEDIA_PREFIXES_TO_FIX" := PyList [PyStr "/old"] ]} "body")
                        (PyList [PyStr "/old"]) eq_refl) eq_refl) eq_refl).
Defined.

Lemma after_request_unchanged_witness :
  after_request demo_settings "{}" = Ok "{}".
Proof.
  apply (after_request_unchanged demo_settings [PyStr "http://old/media/"]
           "https://cdn/media/" "{}" eq_refl eq_refl).
  intros v Hv. apply list_elem_of_singleton in Hv as ->.
  exists "http://old/media/". split; [reflexivity |].
  apply not_occurs_shorter. simpl. lia.
Defined.

Lemma after_request_rewrites_witness :
  after_request demo_settings ("http://old/media" +:+ "/1.jpg")
  = Ok ("https://cdn/media" +:+ "/1.jpg").
Proof.
  refine (proj2 (after_request_rewrites demo_settings "http://old/media/"
                   "https://cdn/media/" "/1.jpg" eq_refl eq_refl _ _) _).
  - discriminate.
  - discriminate.
  - apply not_occurs_shorter. simpl. lia.
Defined.

Lemma after_request_trailing_slash_witness :
  after_request (<["MEDIA_PREFIX" := PyStr ("https://cdn" +:+ "/")]> demo_settings)
    "http://old/media/1.jpg" =
  after_request (<["MEDIA_PREFIX" := PyStr "https://cdn"]> demo_settings)
    "http://old/media/1.jpg".
Proof.
  apply (after_request_trailing_slash demo_settings "https://cdn"). discriminate.
Defined.

Lemma after_request_empty_legacy_witness :
  after_request
    {[ "MEDIA_PREFIXES_TO_FIX" := PyList [PyStr "/"]; "MEDIA_PREFIX" := PyStr "X/" ]}
    "ab" = Ok "XaXbX".
Proof.
  refine (after_request_empty_legacy
            {[ "MEDIA_PREFIXES_TO_FIX" := PyList [PyStr "/"];
               "MEDIA_PREFIX" := PyStr "X/" ]}
            "/" "X/" "ab" eq_refl eq_refl _ eq_refl).
  discriminate.
Defined.

End MediaPrefix.

(** ** Template filters (lines 272-273 of [get_app]) *)

Module JinjaFilters.
Section Register.

(** A filter function. *)
Variable Filter : Type.

(** [for name, jinja_filter in superdesk.JINJA_FILTERS.items():
    app.jinja_env.filters[name] = jinja_filter].  The registry is a
    dictionary, given by its items in iteration order. *)
Fixpoint register_filters (items : list (string * Filter))
    (filters : gmap string Filter) : gmap string Filter :=
  match items with
  | [] => filters
  | (name, jinja_filter) :: rest =>
      register_filters rest (<[name := jinja_filter]> filters)
  end.

Lemma register_filters_other (items : list (string * Filter))
    (filters : gmap string Filter) (name : string) :
  name ∉ items.*1 → register_filters items filters !! name = filters !! name.
Proof.
  revert filters. induction items as [| [n f] items IH]; intros filters; [done |].
  simpl. intros [Hne Hnot]%not_elem_of_cons.
  rewrite IH by done. by apply lookup_insert_ne.
Qed.

(** X30.  Unlike resources, filters are registered unconditionally: after
    the loop every filter of the registry is installed under its name,
    replacing a filter of the environment with the same name, and the
    filters under other names are the ones the environment had. *)
Theorem register_filters_overrides (items : list (string * Filter))
    (filters : gmap string Filter) :
  NoDup items.*1 →
  (∀ name jinja_filter, (name, jinja_filter) ∈ items →
     register_filters items filters !! name = Some jinja_filter) ∧
  (∀ name, name ∉ items.*1 →
     register_filters items filters !! name = filters !! name).
Proof.
  intros Hnodup. split; [| intros name; apply register_filters_other].
  revert filters. induction items as [| [n f] items IH]; intros filters name g Hin.
  - by apply elem_of_nil in Hin.
  - simpl in Hnodup. apply NoDup_cons in Hnodup as [Hfresh Hnodup]. simpl.
    apply elem_of_cons in Hin as [[= -> ->] | Hin].
    + rewrite register_filters_other by done. apply lookup_insert_eq.
    + by apply IH.
Qed.

End Register.

Lemma register_filters_overrides_witness :
  register_filters nat [("upper", 7); ("markdown", 8)] {[ "upper" := 1; "lower" := 2 ]}
    !! "upper" = Some 7 ∧
  register_filters nat [("upper", 7); ("markdown", 8)] {[ "upper" := 1; "lower" := 2 ]}
    !! "lower" = Some 2.
Proof.
  assert (Hnodup : NoDup [("upper", 7); ("markdown", 8)].*1).
  { simpl. apply NoDup_cons. split.
    - intros Hin. apply list_elem_of_singleton in Hin. discriminate Hin.
    - apply NoDup_singleton. }
  split.
  - refine (proj1 (register_filters_overrides nat [("upper", 7); ("markdown", 8)]
                     {[ "upper" := 1; "lower" := 2 ]} Hnodup) "upper" 7 _).
    apply list_elem_of_here.
  - refine (eq_trans (proj2 (register_filters_overrides nat
                               [("upper", 7); ("markdown", 8)]
                               {[ "upper" := 1; "lower" := 2 ]} Hnodup) "lower" _) _).
    + intros Hin. simpl in Hin.
      repeat (apply elem_of_cons in Hin as [[=] | Hin]). by apply elem_of_nil in Hin.
    + reflexivity.
Defined.

End JinjaFilters.
